(** * @litert/observable: the event emitter and the filter manager

    A shallow embedding of the class [EventEmitter] of [src/lib/Events] and
    of the class [FilterManager] of [src/lib/Filters/FilterManager.ts],
    followed by the properties of their documented behaviour.

    Conventions of the embedding.
    - An object whose fields are assigned in place is a record value that the
      operations thread through: every method takes the receiver [this] and
      returns the receiver after the call, next to what the method returns.
    - A method that can [throw] returns a [completion].
    - A callback is a function object compared with [===]: it is a handle
      ([cb], a number) and the code behind the handle is looked up separately.
    - The event table [{}] is a finite map keyed by strings.  Names that hit a
      property of [Object.prototype] (such as ["constructor"]) are outside the
      model, and so are numbers that are not integers ([maxListeners]). *)

From stdpp Require Import gmap strings list fin_maps.
From Equations Require Import Equations.
From Stdlib Require Import ZArith NArith Ascii Lia.


(** ** JavaScript values and completions *)

(** The values that travel as event arguments, as return values of callbacks
    and as thrown values. *)
Inductive value : Type :=
| VUndefined
| VBool (b : bool)
| VNum (n : Z)
| VStr (s : string)
| VError (name : string) (metadata : list (string * string)).

#[global] Instance value_eq_dec : EqDecision value.
Proof. solve_decision. Defined.

(** How a call ends: it returns, or it throws. *)
Inductive completion (A : Type) : Type :=
| Normal (a : A)
| Throw (e : value).
Arguments Normal {A} a.
Arguments Throw {A} e.

(** Identity of a function object. *)
Definition cb : Type := nat.

(** [Array.prototype.splice(start, deleteCount)]: the removed elements and
    the array that is left; [deleteCount] omitted removes up to the end. *)
Definition splice {A : Type} (start : nat) (deleteCount : option nat)
    (l : list A) : list A * list A :=
  let n := default (length l - start) deleteCount in
  (take n (drop start l), take start l ++ drop (start + n) l).

(** Matching on a value while remembering the equation. *)
Definition inspect {A : Type} (a : A) : {b : A | a = b} := exist _ a eq_refl.

(** ** Events *)

Module Errors.

(** Modelled from the spec: the error classes of [./Errors] are not among
    the sources; the spec names the one thrown by registration
    "ListenerLimitExceeded", a distinguishable error kind. *)
Definition E_EXCEED_MAX_LISTENERS : value :=
  VError "E_EXCEED_MAX_LISTENERS" [].

End Errors.

(** [IConfiguration] of [Common.ts]. *)
Record IConfiguration : Type := {
  interruptable : bool;
  continueOnError : bool;
  maxListeners : Z
}.

#[global] Instance IConfiguration_eq_dec : EqDecision IConfiguration.
Proof. solve_decision. Defined.

(** [Partial<IConfiguration>]: a key is present or not. *)
Record PartialConfiguration : Type := {
  p_interruptable : option bool;
  p_continueOnError : option bool;
  p_maxListeners : option Z
}.

(** The object spread [{ ...base, ...over }]. *)
Definition spread (base : IConfiguration) (over : PartialConfiguration)
    : IConfiguration :=
  {| interruptable := default (interruptable base) (p_interruptable over);
     continueOnError := default (continueOnError base) (p_continueOnError over);
     maxListeners := default (maxListeners base) (p_maxListeners over) |}.

Definition DEFAULT_CONFIGURATION : IConfiguration :=
  {| continueOnError := false; interruptable := false; maxListeners := 10 |}.

Module ListenerInfo.
Record t : Type := new { callback : cb; once : bool }.
End ListenerInfo.

#[global] Instance ListenerInfo_eq_dec : EqDecision ListenerInfo.t.
Proof. solve_decision. Defined.

(** A reference to a configuration object.  [on] and [once] hand the global
    configuration object itself to a new [EventInfo] (no copy is made), so
    configuration objects live in a store and records hold references. *)
Definition ref : Type := nat.

Module EventInfo.
Record t : Type := mk { config : ref;
                        listeners : list ListenerInfo.t }.
(** The constructor: the given configuration and an empty queue. *)
Definition new (config : ref) : t :=
  {| config := config; listeners := [] |}.
End EventInfo.

#[global] Instance EventInfo_eq_dec : EqDecision EventInfo.t.
Proof. solve_decision. Defined.

Module EventEmitter.

(** The two private fields of the class, and the configuration objects
    created so far ([objects], indexed by reference). *)
Record t : Type := mk {
  objects : list IConfiguration;
  P_CONFIG : ref;
  P_EVENT_SLOTS : gmap string EventInfo.t
}.

#[global] Instance t_eq_dec : EqDecision t.
Proof. solve_decision. Defined.

(** An object literal [{ ... }]: a new object, and the reference to it. *)
Definition alloc (c : IConfiguration) (this : t) : ref * t :=
  (length (objects this),
   {| objects := objects this ++ [c];
      P_CONFIG := P_CONFIG this;
      P_EVENT_SLOTS := P_EVENT_SLOTS this |}).

(** Reading through a reference. *)
Definition deref (r : ref) (this : t) : IConfiguration :=
  default DEFAULT_CONFIGURATION (objects this !! r).

Definition set_P_CONFIG (r : ref) (this : t) : t :=
  {| objects := objects this;
     P_CONFIG := r;
     P_EVENT_SLOTS := P_EVENT_SLOTS this |}.

(** [this[P_EVENT_SLOTS][event] = ev], and also the write-back of a record
    mutated through the reference [ev]. *)
Definition set_slot (event : string) (ev : EventInfo.t) (this : t) : t :=
  {| objects := objects this;
     P_CONFIG := P_CONFIG this;
     P_EVENT_SLOTS := <[event := ev]> (P_EVENT_SLOTS this) |}.

Definition constructor (config : option PartialConfiguration) : t :=
  {| objects :=
       [match config with
        | Some c => spread DEFAULT_CONFIGURATION c
        | None => DEFAULT_CONFIGURATION
        end];
     P_CONFIG := 0;
     P_EVENT_SLOTS := ∅ |}.

Definition on (event : string) (callback : cb) (this : t)
    : completion unit * t :=
  let '(ev, this) :=
    match P_EVENT_SLOTS this !! event with
    | Some ev => (ev, this)
    | None =>
        let ev := EventInfo.new (P_CONFIG this) in
        (ev, set_slot event ev this)
    end in
  if (maxListeners (deref (EventInfo.config ev) this)
        =? Z.of_nat (length (EventInfo.listeners ev)))%Z
  then (Throw Errors.E_EXCEED_MAX_LISTENERS, this)
  else
    (Normal tt,
     set_slot event
       (EventInfo.mk (EventInfo.config ev)
          (EventInfo.listeners ev ++ [ListenerInfo.new callback false]))
       this).

Definition addListener := on.

Definition once (event : string) (callback : cb) (this : t)
    : completion unit * t :=
  let '(ev, this) :=
    match P_EVENT_SLOTS this !! event with
    | Some ev => (ev, this)
    | None =>
        let ev := EventInfo.new (P_CONFIG this) in
        (ev, set_slot event ev this)
    end in
  if (maxListeners (deref (EventInfo.config ev) this)
        =? Z.of_nat (length (EventInfo.listeners ev)))%Z
  then (Throw Errors.E_EXCEED_MAX_LISTENERS, this)
  else
    (Normal tt,
     set_slot event
       (EventInfo.mk (EventInfo.config ev)
          (EventInfo.listeners ev ++ [ListenerInfo.new callback true]))
       this).

Definition addOnceListener := once.

(** [Object.keys(this[P_EVENT_SLOTS])], as a set: the order of the keys is
    not modelled. *)
Definition eventNames (this : t) : gset string := dom (P_EVENT_SLOTS this).

Definition hasListener (event : string) (callback : cb) (this : t) : bool :=
  match P_EVENT_SLOTS this !! event with
  | None => false
  | Some ev =>
      0 <? length (filter (λ x, ListenerInfo.callback x = callback)
                     (EventInfo.listeners ev))
  end.

Definition listeners (event : string) (this : t) : list cb :=
  match P_EVENT_SLOTS this !! event with
  | Some ev => map ListenerInfo.callback (EventInfo.listeners ev)
  | None => []
  end.

Definition listenerCount (event : string) (this : t) : nat :=
  match P_EVENT_SLOTS this !! event with
  | Some ev => length (EventInfo.listeners ev)
  | None => 0
  end.

(** The loop of [off]:
    [for (i = 0; i < ls.length; i++) if (ls[i].callback === callback) ls.splice(i--, 1)].
    [ls !! i] is [None] exactly when [i < ls.length] fails; after a splice
    the index is decremented and then incremented, so it stays. *)
Equations? off_loop (callback : cb) (ls : list ListenerInfo.t) (i : nat)
    : list ListenerInfo.t by wf (length ls - i) lt :=
  off_loop callback ls i with inspect (ls !! i) => {
    | exist _ None _ := ls;
    | exist _ (Some x) _ with decide (ListenerInfo.callback x = callback) => {
        | left _ := off_loop callback (splice i (Some 1) ls).2 i;
        | right _ := off_loop callback ls (S i) } }.
Proof.
  - apply lookup_lt_Some in e. unfold splice; simpl.
    rewrite length_app, length_take, length_drop. lia.
  - apply lookup_lt_Some in e. lia.
Qed.

Definition off (event : string) (callback : option cb) (this : t)
    : nat * t :=
  match P_EVENT_SLOTS this !! event with
  | None => (0, this)
  | Some ev =>
      let ls :=
        match callback with
        | Some c => off_loop c (EventInfo.listeners ev) 0
        | None => EventInfo.listeners ev
        end in
      let '(removed, ls) := splice 0 None ls in
      (length removed,
       set_slot event (EventInfo.mk (EventInfo.config ev) ls) this)
  end.

Definition removeListener := off.

(** The two argument shapes of [configEvent]. *)
Inductive configEvent_args : Type :=
| args2 (event : string) (config : PartialConfiguration)
| args1 (config : PartialConfiguration).

Definition configEvent (args : configEvent_args) (this : t) : t :=
  match args with
  | args2 event config =>
      match P_EVENT_SLOTS this !! event with
      | Some ev =>
          let '(r, this) :=
            alloc (spread (deref (EventInfo.config ev) this) config) this in
          set_slot event (EventInfo.mk r (EventInfo.listeners ev)) this
      | None =>
          let '(r, this) :=
            alloc (spread (deref (P_CONFIG this) this) config) this in
          set_slot event (EventInfo.new r) this
      end
  | args1 config =>
      let '(r, this) :=
        alloc (spread (deref (P_CONFIG this) this) config) this in
      set_P_CONFIG r this
  end.

(** *** Callbacks

    [emit] calls [listener.callback.apply(this, args)]: the callback gets
    the emitter itself and may call any of its methods before it returns or
    throws.  The code of a callback is a [script]: a tree of method calls on
    the emitter, each continued with the completion of the call, with reads
    and writes of the state the callbacks own ([U]) in between. *)

Inductive call : Type :=
| call_on (event : string) (callback : cb)
| call_once (event : string) (callback : cb)
| call_off (event : string) (callback : option cb)
| call_configEvent (args : configEvent_args)
| call_emit (event : string) (args : list value)
| call_hasListener (event : string) (callback : cb)
| call_listeners (event : string)
| call_listenerCount (event : string).

Inductive reply : Type :=
| reply_this
| reply_number (n : nat)
| reply_boolean (b : bool)
| reply_callbacks (l : list cb).

Inductive script {U : Type} : Type :=
| s_return (v : value)
| s_throw (e : value)
| s_call (c : call) (k : completion reply → script)
| s_get (k : U → script)
| s_put (u : U) (k : script).
Arguments script U : clear implicits.

Section dispatch.

Context {U : Type}.

(** The code behind each function object. *)
Variable code : cb → list value → script U.

(** What a run goes through: the emitter, the state owned by the
    callbacks, and the journal of the invocations made by [emit] (event,
    callback, arguments), latest last. *)
Record world : Type := World {
  emitter : t;
  store : U;
  journal : list (string * cb * list value)
}.

Definition with_emitter (this : t) (w : world) : world :=
  {| emitter := this; store := store w; journal := journal w |}.

Definition with_store (u : U) (w : world) : world :=
  {| emitter := emitter w; store := u; journal := journal w |}.

Definition invoked (event : string) (callback : cb) (args : list value)
    (w : world) : world :=
  {| emitter := emitter w; store := store w;
     journal := journal w ++ [(event, callback, args)] |}.

(** [None] stands for a run that has not finished within the fuel. *)
Definition run_result (A : Type) : Type := option (completion A * world).

Section run.

(** [this.emit], as far as the remaining fuel goes. *)
Variable emit_rec : string → list value → world → run_result bool.

Definition do_call (c : call) (w : world) : run_result reply :=
  match c with
  | call_on event callback =>
      let '(r, this) := on event callback (emitter w) in
      Some (match r with
            | Normal _ => Normal reply_this
            | Throw e => Throw e
            end, with_emitter this w)
  | call_once event callback =>
      let '(r, this) := once event callback (emitter w) in
      Some (match r with
            | Normal _ => Normal reply_this
            | Throw e => Throw e
            end, with_emitter this w)
  | call_off event callback =>
      let '(n, this) := off event callback (emitter w) in
      Some (Normal (reply_number n), with_emitter this w)
  | call_configEvent args =>
      Some (Normal reply_this,
            with_emitter (configEvent args (emitter w)) w)
  | call_emit event args =>
      match emit_rec event args w with
      | None => None
      | Some (Normal b, w) => Some (Normal (reply_boolean b), w)
      | Some (Throw e, w) => Some (Throw e, w)
      end
  | call_hasListener event callback =>
      Some (Normal (reply_boolean (hasListener event callback (emitter w))), w)
  | call_listeners event =>
      Some (Normal (reply_callbacks (listeners event (emitter w))), w)
  | call_listenerCount event =>
      Some (Normal (reply_number (listenerCount event (emitter w))), w)
  end.

Fixpoint run (s : script U) (w : world) : run_result value :=
  match s with
  | s_return v => Some (Normal v, w)
  | s_throw e => Some (Throw e, w)
  | s_call c k =>
      match do_call c w with
      | None => None
      | Some (r, w) => run (k r) w
      end
  | s_get k => run (k (store w)) w
  | s_put u k => run k (with_store u w)
  end.

End run.

(** The queue read through the reference [ev] that [emit] holds.  No
    method removes or replaces a record of the table, so the record [ev]
    points to is the one the table has for [event]. *)
Definition queue (event : string) (w : world) : list ListenerInfo.t :=
  match P_EVENT_SLOTS (emitter w) !! event with
  | Some ev => EventInfo.listeners ev
  | None => []
  end.

(** The [finally] block: [if (listener.once) ev.listeners.splice(i--, 1)].
    It removes what is at index [i] then, whatever that is. *)
Definition finally (listener : ListenerInfo.t) (event : string) (i : nat)
    (w : world) : world :=
  if ListenerInfo.once listener then
    match P_EVENT_SLOTS (emitter w) !! event with
    | Some ev =>
        with_emitter
          (set_slot event
             (EventInfo.mk (EventInfo.config ev)
                (splice i (Some 1) (EventInfo.listeners ev)).2)
             (emitter w)) w
    | None => w
    end
  else w.

(** The index of the next iteration: [i--] of the [finally] block, if it
    ran its body, and then [i++] of the loop. *)
Definition next_index (listener : ListenerInfo.t) (i : nat) : nat :=
  if ListenerInfo.once listener then i else S i.

(** What the [try] and the [catch] block decide: a [return] or a [throw]
    that leaves the loop, or nothing, and the loop goes on. *)
Inductive verdict : Type :=
| Leaves (r : completion bool)
| GoesOn.

(** How one iteration of the loop of [emit] ends. *)
Inductive iteration : Type :=
| Leave (r : completion bool) (w : world)
| Continue (i : nat) (w : world).

(** The entry of [emit], in front of a loop [loop]. *)
Definition emit_with
    (loop : string → list value → bool → bool → nat → world → run_result bool)
    (event : string) (args : list value) (w : world) : run_result bool :=
  match P_EVENT_SLOTS (emitter w) !! event with
  | None => Some (Normal false, w)
  | Some ev =>
      if length (EventInfo.listeners ev) =? 0 then Some (Normal false, w)
      else
        let INTERRUPTABLE :=
          interruptable (deref (EventInfo.config ev) (emitter w)) in
        let CONTINUE_ON_ERROR :=
          continueOnError (deref (EventInfo.config ev) (emitter w)) in
        loop event args INTERRUPTABLE CONTINUE_ON_ERROR 0 w
  end.

(** The [try] block, the call of [listener.callback] and the test of what it
    returned, and the [catch] block. *)
Definition try_catch (emit_rec : string → list value → world → run_result bool)
    (event : string) (args : list value)
    (INTERRUPTABLE CONTINUE_ON_ERROR : bool)
    (listener : ListenerInfo.t) (w : world) : option (verdict * world) :=
  match run emit_rec (code (ListenerInfo.callback listener) args)
          (invoked event (ListenerInfo.callback listener) args w) with
  | None => None
  | Some (Normal ret, w) =>
      if INTERRUPTABLE && bool_decide (ret = VBool false)
      then Some (Leaves (Normal true), w)
      else Some (GoesOn, w)
  | Some (Throw e, w) =>
      if bool_decide (event = "error")
      then Some (Leaves (Throw e), w)
      else
        match emit_rec "error" [e] w with
        | None => None
        | Some (Throw e', w) => Some (Leaves (Throw e'), w)
        | Some (Normal _, w) =>
            if negb CONTINUE_ON_ERROR
            then Some (Leaves (Normal true), w)
            else Some (GoesOn, w)
        end
  end.

(** The body of the loop, at index [i] with [listener = ev.listeners[i]]:
    the [finally] block runs after the [try] and the [catch] block, however
    they end. *)
Definition body (emit_rec : string → list value → world → run_result bool)
    (event : string) (args : list value)
    (INTERRUPTABLE CONTINUE_ON_ERROR : bool)
    (i : nat) (listener : ListenerInfo.t) (w : world)
    : option iteration :=
  match try_catch emit_rec event args INTERRUPTABLE CONTINUE_ON_ERROR
          listener w with
  | None => None
  | Some (Leaves r, w) => Some (Leave r (finally listener event i w))
  | Some (GoesOn, w) =>
      Some (Continue (next_index listener i) (finally listener event i w))
  end.

(** The loop [for (let i = 0; i < ev.listeners.length; i++)], entered at
    index [i].  Every iteration takes one unit of fuel and the calls of
    [emit] made during it get what is left. *)
Fixpoint dispatch (fuel : nat) (event : string) (args : list value)
    (INTERRUPTABLE CONTINUE_ON_ERROR : bool) (i : nat) (w : world)
    {struct fuel} : run_result bool :=
  match fuel with
  | 0 => None
  | S fuel =>
      match queue event w !! i with
      | None => Some (Normal true, w)
      | Some listener =>
          match body (emit_with (dispatch fuel)) event args
                  INTERRUPTABLE CONTINUE_ON_ERROR i listener w with
          | None => None
          | Some (Leave r w) => Some (r, w)
          | Some (Continue i w) =>
              dispatch fuel event args INTERRUPTABLE CONTINUE_ON_ERROR i w
          end
      end
  end.

Definition emit (fuel : nat) (event : string) (args : list value)
    (w : world) : run_result bool :=
  emit_with (dispatch fuel) event args w.

End dispatch.

Arguments world U : clear implicits.

End EventEmitter.

(** ** Filters *)

(** A plain object used as a dictionary, [Record<string, V>], with the order
    in which JavaScript enumerates its keys: the properties are kept in the
    order of their creation, and [for ... in] yields the keys that are array
    indices first, in ascending numeric order, and then the other keys in the
    order of creation.  Keys that hit a property of [Object.prototype] are
    outside the model. *)
Module Dict.

Section dict.

Context {V : Type}.

Definition t : Type := list (string * V).

(** [o[k]] *)
Fixpoint get (o : list (string * V)) (k : string) : option V :=
  match o with
  | [] => None
  | (k', v) :: o => if decide (k' = k) then Some v else get o k
  end.

(** [o[k] = v]: an existing property keeps its place. *)
Fixpoint set (o : list (string * V)) (k : string) (v : V)
    : list (string * V) :=
  match o with
  | [] => [(k, v)]
  | (k', v') :: o =>
      if decide (k' = k) then (k, v) :: o else (k', v') :: set o k v
  end.

(** [delete o[k]] *)
Fixpoint delete (o : list (string * V)) (k : string) : list (string * V) :=
  match o with
  | [] => []
  | (k', v') :: o =>
      if decide (k' = k) then o else (k', v') :: delete o k
  end.

End dict.

Arguments t V : clear implicits.

Definition digit (a : ascii) : option N :=
  let n := N_of_ascii a in
  if ((48 <=? n) && (n <=? 57))%N then Some (n - 48)%N else None.

Fixpoint digits (s : string) (acc : N) : option N :=
  match s with
  | EmptyString => Some acc
  | String a s =>
      match digit a with
      | Some d => digits s (10 * acc + d)%N
      | None => None
      end
  end.

(** An array index: the canonical decimal form of an integer below
    [2^32 - 1]. *)
Definition array_index (s : string) : option N :=
  match s with
  | EmptyString => None
  | String a rest =>
      if bool_decide (a = "0"%char) && negb (bool_decide (rest = EmptyString))
      then None
      else
        match digits s 0 with
        | Some n => if (n <? 2 ^ 32 - 1)%N then Some n else None
        | None => None
        end
  end.

Fixpoint insert_index (n : N) (k : string) (l : list (N * string))
    : list (N * string) :=
  match l with
  | [] => [(n, k)]
  | (m, k') :: l' =>
      if (n <? m)%N then (n, k) :: l else (m, k') :: insert_index n k l'
  end.

(** The keys that are array indices, ascending. *)
Fixpoint index_keys {V : Type} (o : list (string * V)) : list (N * string) :=
  match o with
  | [] => []
  | (k, _) :: o =>
      match array_index k with
      | Some n => insert_index n k (index_keys o)
      | None => index_keys o
      end
  end.

(** The other keys, in the order of creation. *)
Fixpoint string_keys {V : Type} (o : list (string * V)) : list string :=
  match o with
  | [] => []
  | (k, _) :: o =>
      match array_index k with
      | Some _ => string_keys o
      | None => k :: string_keys o
      end
  end.

(** The keys as [for (const key in o)] visits them. *)
Definition keys {V : Type} (o : list (string * V)) : list string :=
  map snd (index_keys o) ++ string_keys o.

End Dict.

Module FilterManager.

(** Modelled from the spec: the error classes of [./Errors] are not among
    the sources; the spec calls this one the "duplicate-registration
    error".  It carries the name and the key as metadata. *)
Definition E_DUP_FILTER_FUNCTION (name key : string) : value :=
  VError "E_DUP_FILTER_FUNCTION" [("name"%string, name); ("key"%string, key)].

(** What [callbacks[key]] is not a function would throw. *)
Definition TypeError : value := VError "TypeError" [].

(** The private field [_filters]. *)
Record t : Type := mk {
  _filters : gmap string (Dict.t cb)
}.

Definition constructor : t := {| _filters := ∅ |}.

(** [name: string | string[]] *)
Inductive names : Type :=
| one (name : string)
| many (name : list string).

(** The loop [for (const s of name)] of [register]. *)
Fixpoint register_loop (name : list string) (key : string) (callback : cb)
    (this : t) : completion unit * t :=
  match name with
  | [] => (Normal tt, this)
  | s :: name =>
      let this :=
        match _filters this !! s with
        | Some _ => this
        | None => {| _filters := <[s := []]> (_filters this) |}
        end in
      let sub := default [] (_filters this !! s) in
      match Dict.get sub key with
      | Some _ => (Throw (E_DUP_FILTER_FUNCTION s key), this)
      | None =>
          register_loop name key callback
            {| _filters := <[s := Dict.set sub key callback]> (_filters this) |}
      end
  end.

Definition register (name : names) (key : string) (callback : cb)
    (this : t) : completion unit * t :=
  let name :=
    match name with
    | one s => [s]
    | many l => l
    end in
  register_loop name key callback this.

Definition unregister (name key : string) (this : t) : t :=
  match _filters this !! name with
  | None => this
  | Some sub => {| _filters := <[name := Dict.delete sub key]> (_filters this) |}
  end.

Definition unregisterAll (name : string) (this : t) : t :=
  {| _filters := delete name (_filters this) |}.

(** What a filter function does with the current value: it returns
    something that is not a [Promise], or a [Promise] that is fulfilled or
    rejected, or it throws. *)
Inductive outcome : Type :=
| returns (v : value)
| fulfilled (v : value)
| rejected (e : value)
| throws (e : value).

Section filter.

(** The code behind each function object. *)
Variable code : cb → value → list value → outcome.

(** The loop [for (const key in callbacks)] over the keys still to
    visit, up to the settlement of the promise that [filter] returns:
    [Normal] when it is fulfilled, [Throw] when it is rejected. *)
Fixpoint filter_loop (keys : list string) (callbacks : Dict.t cb)
    (v : value) (args : list value) : completion value :=
  match keys with
  | [] => Normal v
  | key :: keys =>
      match Dict.get callbacks key with
      | None => Throw TypeError
      | Some f =>
          match code f v args with
          | returns v => filter_loop keys callbacks v args
          | fulfilled v => filter_loop keys callbacks v args
          | rejected e => Throw e
          | throws e => Throw e
          end
      end
  end.

Definition filter (name : string) (v : value) (args : list value)
    (this : t) : completion value :=
  match _filters this !! name with
  | None => Normal v
  | Some callbacks => filter_loop (Dict.keys callbacks) callbacks v args
  end.

End filter.

(** The symbols (there are none) and then the own property names. *)
Definition getFunctionList (name : string) (this : t) : list string :=
  Dict.keys (default [] (_filters this !! name)).

(** The symbols (there are none) and then the own property names of
    [_filters], as a set: the order of the names is not modelled. *)
Definition getFilterList (this : t) : gset string := dom (_filters this).

End FilterManager.

(** [createFilterManager()] *)
Definition createFilterManager : FilterManager.t := FilterManager.constructor.

(** ** Notions used to state the properties *)

Import EventEmitter.

(** The configuration an event record holds, read through its reference. *)
Definition event_config (event : string) (this : t) : option IConfiguration :=
  (λ ev, deref (EventInfo.config ev) this) <$> P_EVENT_SLOTS this !! event.

(** The configuration that decides whether [event] takes one more listener:
    that of its record, and the global one as long as it has no record. *)
Definition config_in_force (event : string) (this : t) : IConfiguration :=
  default (deref (P_CONFIG this) this) (event_config event this).

(** [listeners.length === config.maxListeners] for [event]. *)
Definition at_limit (event : string) (this : t) : Prop :=
  maxListeners (config_in_force event this)
  = Z.of_nat (listenerCount event this).

#[global] Instance at_limit_dec event this : Decision (at_limit event this).
Proof. unfold at_limit. apply _. Defined.

(** The emitter once [event] has got its record. *)
Definition with_record (event : string) (this : t) : t :=
  match P_EVENT_SLOTS this !! event with
  | Some _ => this
  | None => set_slot event (EventInfo.new (P_CONFIG this)) this
  end.

(** Every reference in use points to an object of the store. *)
Definition allocated (this : t) : Prop :=
  P_CONFIG this < length (objects this)
  ∧ map_Forall (λ _ ev, EventInfo.config ev < length (objects this))
      (P_EVENT_SLOTS this).

#[global] Instance allocated_dec this : Decision (allocated this).
Proof. unfold allocated. apply _. Defined.

(** No event has more listeners than its [maxListeners], and an event still
    to come will have room for none or more. *)
Definition within_limits (this : t) : Prop :=
  (0 ≤ maxListeners (deref (P_CONFIG this) this))%Z
  ∧ map_Forall
      (λ _ ev, (Z.of_nat (length (EventInfo.listeners ev))
                ≤ maxListeners (deref (EventInfo.config ev) this))%Z)
      (P_EVENT_SLOTS this).

#[global] Instance within_limits_dec this : Decision (within_limits this).
Proof. unfold within_limits. apply _. Defined.


(** A call that only reads the emitter. *)
Definition reads (c : call) : Prop :=
  match c with
  | call_hasListener _ _ | call_listeners _ | call_listenerCount _ => True
  | _ => False
  end.

(** A script all of whose calls satisfy [P]. *)
Inductive calls_only {U : Type} (P : call → Prop) : script U → Prop :=
| calls_only_return v : calls_only P (s_return v)
| calls_only_throw e : calls_only P (s_throw e)
| calls_only_call c k :
    P c → (∀ r, calls_only P (k r)) → calls_only P (s_call c k)
| calls_only_get k : (∀ u, calls_only P (k u)) → calls_only P (s_get k)
| calls_only_put u k : calls_only P k → calls_only P (s_put u k).

(** The registration shared by [on] and [once], which differ in the flag. *)
Definition add (flag : bool) (event : string) (callback : cb) (this : t)
    : completion unit * t :=
  let this' := with_record event this in
  if decide (at_limit event this)
  then (Throw Errors.E_EXCEED_MAX_LISTENERS, this')
  else
    (Normal tt,
     set_slot event
       (EventInfo.mk
          (default (P_CONFIG this) (EventInfo.config <$> P_EVENT_SLOTS this !! event))
          (default [] (EventInfo.listeners <$> P_EVENT_SLOTS this !! event)
             ++ [ListenerInfo.new callback flag]))
       this).

Section iterations.

Context {U : Type}.
Variable code : cb → list value → script U.

(** [loop_reaches event args I C fuel i w fuel' i' w']: the loop of an [emit]
    of [event], entered at index [i] in the world [w], gets to the head of an
    iteration at index [i'] in the world [w'], with [fuel'] left. *)
Inductive loop_reaches (event : string) (args : list value) (I C : bool)
    : nat → nat → world U → nat → nat → world U → Prop :=
| loop_reaches_here fuel i w :
    loop_reaches event args I C fuel i w fuel i w
| loop_reaches_next fuel i w listener i1 w1 fuel' i' w' :
    queue event w !! i = Some listener →
    body code (emit code fuel) event args I C i listener w
    = Some (Continue i1 w1) →
    loop_reaches event args I C fuel i1 w1 fuel' i' w' →
    loop_reaches event args I C (S fuel) i w fuel' i' w'.

(** The constants [INTERRUPTABLE] and [CONTINUE_ON_ERROR] of an [emit] of
    [event] that starts in the world [w]. *)
Definition INTERRUPTABLE (event : string) (w : world U) : bool :=
  interruptable (config_in_force event (emitter w)).

Definition CONTINUE_ON_ERROR (event : string) (w : world U) : bool :=
  continueOnError (config_in_force event (emitter w)).

(** [emit_reaches fuel event args w fuel' i' w']: the call
    [emit(event, ...args)] made in the world [w] enters its loop and gets to
    the head of an iteration at index [i'] in the world [w']. *)
Definition emit_reaches (fuel : nat) (event : string) (args : list value)
    (w : world U) (fuel' i' : nat) (w' : world U) : Prop :=
  queue event w ≠ []
  ∧ loop_reaches event args (INTERRUPTABLE event w) (CONTINUE_ON_ERROR event w)
      fuel 0 w fuel' i' w'.

(** Every run of [f] that finishes keeps the property [P] of the world. *)
Definition keeps {A : Type} (P : world U → Prop)
    (f : world U → @run_result U A) : Prop :=
  ∀ w r w', P w → f w = Some (r, w') → P w'.

(** [g] finishes every call that [f] finishes, with the same result. *)
Definition extends {A B : Type} (f g : A → option B) : Prop :=
  ∀ a b, f a = Some b → g a = Some b.

Definition emit_extends
    (f g : string → list value → world U → @run_result U bool) : Prop :=
  ∀ event args, extends (f event args) (g event args).



End iterations.

Module Pipeline.

(** The functions registered in the dictionary [callbacks], in the order in
    which [for ... in] visits their keys. *)
Definition functions (callbacks : Dict.t cb) : list cb :=
  omap (Dict.get callbacks) (Dict.keys callbacks).

(** The value that a call of a filter function hands on, and the error that
    ends the pipeline. *)
Definition settle (o : FilterManager.outcome) : completion value :=
  match o with
  | FilterManager.returns v => Normal v
  | FilterManager.fulfilled v => Normal v
  | FilterManager.rejected e => Throw e
  | FilterManager.throws e => Throw e
  end.

(** The functions [fs] applied one after the other, each to the result of
    the one before. *)
Fixpoint chain (code : cb → value → list value → FilterManager.outcome)
    (fs : list cb) (v : value) (args : list value) : completion value :=
  match fs with
  | [] => Normal v
  | f :: fs =>
      match settle (code f v args) with
      | Normal v => chain code fs v args
      | Throw e => Throw e
      end
  end.

(** The dictionary registered under [name], empty if there is none. *)
Definition under (name : string) (this : FilterManager.t) : Dict.t cb :=
  default [] (FilterManager._filters this !! name).

End Pipeline.

(** The queue [q] once its first [m] entries have been visited by the loop
    of [emit]: those of them registered with [once] are gone. *)
Definition after_visits (m : nat) (q : list ListenerInfo.t)
    : list ListenerInfo.t :=
  filter (λ l, ListenerInfo.once l = false) (take m q) ++ drop m q.

(** The invocations of listeners of [event] in a piece of journal. *)
Definition invocations_of (event : string)
    (j : list (string * cb * list value)) : list (string * cb * list value) :=
  filter (λ x, x.1.1 = event) j.



(** A script without [throw]. *)
Inductive no_throw {U : Type} : script U → Prop :=
| no_throw_return v : no_throw (s_return v)
| no_throw_call c k : (∀ r, no_throw (k r)) → no_throw (s_call c k)
| no_throw_get k : (∀ u, no_throw (k u)) → no_throw (s_get k)
| no_throw_put u k : no_throw k → no_throw (s_put u k).

(** No key is there twice in a dictionary of the registry. *)
Definition distinct_keys (this : FilterManager.t) : Prop :=
  map_Forall (λ _ (sub : Dict.t cb), NoDup (map fst sub))
    (FilterManager._filters this).

#[global] Instance distinct_keys_dec this : Decision (distinct_keys this).
Proof. unfold distinct_keys. apply _. Defined.

(** What an [emit] keeps of the emitter when the callbacks leave it alone:
    the configurations, and of the listeners of every event some, in their
    order. *)
Definition kept_from {U : Type} (w w' : world U) : Prop :=
  objects (emitter w') = objects (emitter w)
  ∧ P_CONFIG (emitter w') = P_CONFIG (emitter w)
  ∧ ∀ event,
      option_Forall2
        (λ ev' ev,
           EventInfo.config ev' = EventInfo.config ev
           ∧ EventInfo.listeners ev' `sublist_of` EventInfo.listeners ev)
        (P_EVENT_SLOTS (emitter w') !! event)
        (P_EVENT_SLOTS (emitter w) !! event).

(** ** Concrete emitters and callbacks, for the examples below *)

Module Examples.

Import EventEmitter.

(** [new EventEmitter()] *)
Definition fresh : t := constructor None.






(** The code of the callbacks of the examples:
    - [f1] returns [undefined], [f2] returns [false];
    - [f3] and [f4] throw;
    - [f5] is [function () { this.off("x"); this.on("x", f6); this.on("x", f7); }];
    - [f9] is [function () { this.configEvent("x", { interruptable: true }); }];
    - the others return [undefined]. *)
Definition code (callback : cb) (args : list value) : script unit :=
  match callback with
  | 2 => s_return (VBool false)
  | 3 => s_throw (VStr "boom")
  | 4 => s_throw (VStr "bang")
  | 5 =>
      s_call (call_off "x" None) (λ _,
      s_call (call_on "x" 6) (λ _,
      s_call (call_on "x" 7) (λ _,
      s_return VUndefined)))
  | 9 =>
      s_call (call_configEvent
                (args2 "x" {| p_interruptable := Some true;
                              p_continueOnError := None;
                              p_maxListeners := None |})) (λ _,
      s_return VUndefined)
  | _ => s_return VUndefined
  end.

(** Callbacks that leave the emitter alone: [f2], [f3] and [f4] as above,
    [f8] is [function () { if (!this.listenerCount("x")) return false; }],
    and the others return [undefined]. *)
Definition plain_code (callback : cb) (args : list value) : script unit :=
  match callback with
  | 2 => s_return (VBool false)
  | 3 => s_throw (VStr "boom")
  | 4 => s_throw (VStr "bang")
  | 8 =>
      s_call (call_listenerCount "x") (λ r,
      match r with
      | Normal (reply_number 0) => s_return (VBool false)
      | _ => s_return VUndefined
      end)
  | _ => s_return VUndefined
  end.

(** Callbacks that leave the emitter alone and do not throw: [f2] and [f8]
    as above, and the others return [undefined]. *)
Definition calm_code (callback : cb) (args : list value) : script unit :=
  match callback with
  | 2 => s_return (VBool false)
  | 8 =>
      s_call (call_listenerCount "x") (λ r,
      match r with
      | Normal (reply_number 0) => s_return (VBool false)
      | _ => s_return VUndefined
      end)
  | _ => s_return VUndefined
  end.

(** The world in which nothing has been emitted yet. *)
Definition start (this : t) : world unit :=
  {| emitter := this; store := tt; journal := [] |}.

(** [new EventEmitter({ interruptable: true }).on("x", f1).on("x", f2).on("x", f1)] *)
Definition interruptable_emitter : t :=
  (on "x" 1
     (on "x" 2
        (on "x" 1
           (constructor
              (Some {| p_interruptable := Some true;
                       p_continueOnError := None;
                       p_maxListeners := None |}))).2).2).2.

(** [new EventEmitter().on("x", f9).on("x", f2).on("x", f1)] *)
Definition late_interruptable_emitter : t :=
  (on "x" 1 (on "x" 2 (on "x" 9 fresh).2).2).2.

(** [new EventEmitter().on("x", f3).on("error", f4)] *)
Definition failing_emitter : t := (on "error" 4 (on "x" 3 fresh).2).2.

(** [new EventEmitter().on("x", f3).on("x", f1).on("error", f1)] *)
Definition handled_emitter : t :=
  (on "error" 1 (on "x" 1 (on "x" 3 fresh).2).2).2.

(** [new EventEmitter().once("x", f5).on("x", f1)] *)
Definition rewiring_emitter : t := (on "x" 1 (once "x" 5 fresh).2).2.

(** [new EventEmitter().once("x", f3).on("x", f1)] *)
Definition once_emitter : t := (on "x" 1 (once "x" 3 fresh).2).2.

(** [new EventEmitter({ continueOnError: true }).on("x", f3).on("x", f1)] *)
Definition continuing_emitter : t :=
  (on "x" 1
     (on "x" 3
        (constructor
           (Some {| p_interruptable := None;
                    p_continueOnError := Some true;
                    p_maxListeners := None |}))).2).2.


End Examples.

Module FilterExamples.

(** [f1] adds one, [f2] doubles and returns a promise, [f3] returns a
    promise that is rejected, the others return the value as it is. *)
Definition code (f : cb) (v : value) (args : list value)
    : FilterManager.outcome :=
  match f, v with
  | 1, VNum n => FilterManager.returns (VNum (n + 1))
  | 2, VNum n => FilterManager.fulfilled (VNum (2 * n))
  | 3, _ => FilterManager.rejected (VStr "no")
  | _, _ => FilterManager.returns v
  end.

(** [createFilterManager().register("n", "a", f1).register("n", "b", f2)] *)
Definition two_filters : FilterManager.t :=
  (FilterManager.register (FilterManager.one "n") "b" 2
     (FilterManager.register (FilterManager.one "n") "a" 1
        FilterManager.constructor).2).2.

(** [createFilterManager().register("q", "k", f1)] *)
Definition taken : FilterManager.t :=
  (FilterManager.register (FilterManager.one "q") "k" 1
     FilterManager.constructor).2.

(** [createFilterManager().register("n", "a", f1).register("n", "b", f3)
      .register("n", "c", f2)] *)
Definition failing : FilterManager.t :=
  (FilterManager.register (FilterManager.one "n") "c" 2
     (FilterManager.register (FilterManager.one "n") "b" 3
        (FilterManager.register (FilterManager.one "n") "a" 1
           FilterManager.constructor).2).2).2.


End FilterExamples.

(** * Properties *)



(** ** Arrays *)

Section arrays.

Context {A : Type}.
Implicit Types l : list A.

Lemma splice_one_left l i :
  (splice i (Some 1) l).2 = take i l ++ drop (S i) l.
Proof. unfold splice; simpl. by rewrite Nat.add_1_r. Qed.

Lemma splice_one_removed l i x :
  l !! i = Some x → (splice i (Some 1) l).1 = [x].
Proof.
  intros Hx. unfold splice; simpl.
  by rewrite (drop_S _ _ _ Hx).
Qed.

Lemma splice_one_out_of_range l i :
  l !! i = None → splice i (Some 1) l = ([], l).
Proof.
  intros Hx. apply lookup_ge_None in Hx. unfold splice; simpl.
  rewrite (drop_ge l i), (drop_ge l (i + 1)), (take_ge l i), app_nil_r by lia.
  done.
Qed.

Lemma splice_all l : splice 0 None l = (l, []).
Proof.
  unfold splice; simpl. rewrite Nat.sub_0_r, drop_0, firstn_all.
  by rewrite drop_all.
Qed.

Lemma splice_one_length l i x :
  l !! i = Some x → S (length (splice i (Some 1) l).2) = length l.
Proof.
  intros Hx. apply lookup_lt_Some in Hx.
  rewrite splice_one_left, length_app, length_take, length_drop. lia.
Qed.


End arrays.

(** ** Removal *)

Section removal.

Implicit Types (this : t) (ls : list ListenerInfo.t).

(** What the loop of [off] leaves from index [i] on: the entries with
    another callback. *)
Lemma off_loop_from callback ls i :
  off_loop callback ls i
  = take i ls ++ filter (λ x, ListenerInfo.callback x ≠ callback) (drop i ls).
Proof.
  funelim (off_loop callback ls i); clear Heqcall.
  - pose proof (proj1 (lookup_ge_None _ _) e) as Hi.
    by rewrite drop_ge, take_ge, app_nil_r by lia.
  - match goal with IH : off_loop _ _ _ = _ |- _ => rewrite IH end.
    pose proof (lookup_lt_Some _ _ _ e) as Hi.
    rewrite splice_one_left.
    rewrite take_app_length', drop_app_length' by (rewrite length_take; lia).
    rewrite (drop_S _ _ _ e), filter_cons_False; [done | naive_solver].
  - match goal with IH : off_loop _ _ _ = _ |- _ => rewrite IH end.
    rewrite (take_S_r _ _ _ e), (drop_S _ _ _ e), filter_cons_True by done.
    by rewrite <- app_assoc.
Qed.

Lemma off_loop_filter callback ls :
  off_loop callback ls 0
  = filter (λ x, ListenerInfo.callback x ≠ callback) ls.
Proof. by rewrite off_loop_from, take_0, drop_0. Qed.


Lemma off_Some this event callback ev :
  P_EVENT_SLOTS this !! event = Some ev →
  off event (Some callback) this
  = (length (filter (λ x, ListenerInfo.callback x ≠ callback)
               (EventInfo.listeners ev)),
     set_slot event (EventInfo.mk (EventInfo.config ev) []) this).
Proof.
  intros Hev. unfold off. rewrite Hev, off_loop_filter, splice_all. done.
Qed.

Lemma off_None this event ev :
  P_EVENT_SLOTS this !! event = Some ev →
  off event None this
  = (length (EventInfo.listeners ev),
     set_slot event (EventInfo.mk (EventInfo.config ev) []) this).
Proof. intros Hev. unfold off. by rewrite Hev, splice_all. Qed.




End removal.

(** ** Registration *)

Section registration.

Implicit Types (this : t) (event : string) (callback : cb).

Lemma deref_set_slot r event ev this :
  deref r (set_slot event ev this) = deref r this.
Proof. done. Qed.

Lemma set_slot_set_slot event ev ev' this :
  set_slot event ev (set_slot event ev' this) = set_slot event ev this.
Proof. unfold set_slot; simpl. by rewrite insert_insert_eq. Qed.

Lemma at_limit_lookup event this :
  at_limit event this ↔
  match P_EVENT_SLOTS this !! event with
  | Some ev =>
      maxListeners (deref (EventInfo.config ev) this)
      = Z.of_nat (length (EventInfo.listeners ev))
  | None => maxListeners (deref (P_CONFIG this) this) = 0%Z
  end.
Proof.
  unfold at_limit, config_in_force, event_config, listenerCount.
  by destruct (P_EVENT_SLOTS this !! event).
Qed.

Lemma on_add event callback this :
  on event callback this = add false event callback this.
Proof.
  unfold on, add.
  destruct (decide (at_limit event this)) as [Hl | Hl];
    rewrite at_limit_lookup in Hl; unfold with_record;
    destruct (P_EVENT_SLOTS this !! event) as [ev|]; simpl in *;
    rewrite ?deref_set_slot, ?set_slot_set_slot;
    change (Z.of_nat 0) with 0%Z in *.
  - by rewrite Hl, Z.eqb_refl.
  - by rewrite Hl.
  - by apply Z.eqb_neq in Hl as ->.
  - by apply Z.eqb_neq in Hl as ->.
Qed.

Lemma once_add event callback this :
  once event callback this = add true event callback this.
Proof.
  unfold once, add.
  destruct (decide (at_limit event this)) as [Hl | Hl];
    rewrite at_limit_lookup in Hl; unfold with_record;
    destruct (P_EVENT_SLOTS this !! event) as [ev|]; simpl in *;
    rewrite ?deref_set_slot, ?set_slot_set_slot;
    change (Z.of_nat 0) with 0%Z in *.
  - by rewrite Hl, Z.eqb_refl.
  - by rewrite Hl.
  - by apply Z.eqb_neq in Hl as ->.
  - by apply Z.eqb_neq in Hl as ->.
Qed.


Lemma with_record_new event this :
  P_EVENT_SLOTS this !! event = None →
  with_record event this ≠ this
  ∧ eventNames (with_record event this) = {[event]} ∪ eventNames this.
Proof.
  intros Hev. unfold with_record, eventNames. rewrite Hev. split.
  - intros Heq. apply (f_equal (λ e, P_EVENT_SLOTS e !! event)) in Heq.
    simpl in Heq. rewrite lookup_insert_eq, Hev in Heq. done.
  - simpl. by rewrite dom_insert_L.
Qed.




End registration.

(** ** Configuration *)

Section configuration.

Implicit Types (this : t) (event : string) (callback : cb).
Implicit Types (config : PartialConfiguration) (r : ref).


Lemma deref_alloc_new c this : deref (alloc c this).1 (alloc c this).2 = c.
Proof.
  unfold deref, alloc; simpl.
  by rewrite lookup_app_r, Nat.sub_diag.
Qed.


(** What a registration does to the table: the record of [event] is written,
    with the configuration it had, or else the global one. *)
Lemma add_effect flag event callback this :
  ∃ ls,
    (add flag event callback this).2
    = set_slot event
        (EventInfo.mk
           (default (P_CONFIG this)
              (EventInfo.config <$> P_EVENT_SLOTS this !! event)) ls)
        this
    ∧ (ls = default [] (EventInfo.listeners <$> P_EVENT_SLOTS this !! event)
       ∧ at_limit event this
       ∨ ls = default [] (EventInfo.listeners <$> P_EVENT_SLOTS this !! event)
              ++ [ListenerInfo.new callback flag]
         ∧ ¬ at_limit event this).
Proof.
  unfold add. case_decide as Hl; simpl; [| eauto].
  exists (default [] (EventInfo.listeners <$> P_EVENT_SLOTS this !! event)).
  split; [| by left]. unfold with_record.
  destruct (P_EVENT_SLOTS this !! event) as [[c ls]|] eqn:Hev; simpl; [| done].
  unfold set_slot. rewrite insert_id by done. by destruct this.
Qed.

Lemma off_effect event (which : option cb) this :
  (off event which this).2 = this
  ∨ ∃ ev, P_EVENT_SLOTS this !! event = Some ev
          ∧ (off event which this).2
            = set_slot event (EventInfo.mk (EventInfo.config ev) []) this.
Proof.
  destruct (P_EVENT_SLOTS this !! event) as [ev|] eqn:Hev.
  - right. exists ev. split; [done |].
    destruct which; [by rewrite (off_Some _ _ _ _ Hev) |].
    by rewrite (off_None _ _ _ Hev).
  - left. unfold off. by rewrite Hev.
Qed.

Lemma allocated_constructor (given : option PartialConfiguration) :
  allocated (constructor given).
Proof.
  split; simpl; [lia |]. apply map_Forall_empty.
Qed.

Lemma allocated_set_slot event ev this :
  allocated this → EventInfo.config ev < length (objects this) →
  allocated (set_slot event ev this).
Proof.
  intros [Hg Hs] Hev. split; simpl; [done |]. by apply map_Forall_insert_2.
Qed.

Lemma allocated_add flag event callback this :
  allocated this → allocated (add flag event callback this).2.
Proof.
  intros Ha. destruct (add_effect flag event callback this) as (ls & -> & _).
  apply allocated_set_slot; [done |]. simpl. destruct Ha as [Hg Hs].
  destruct (P_EVENT_SLOTS this !! event) as [ev|] eqn:Hev; simpl; [| done].
  by apply (Hs _ _ Hev).
Qed.

Lemma allocated_off event (which : option cb) this :
  allocated this → allocated (off event which this).2.
Proof.
  intros Ha. destruct (off_effect event which this) as [-> | (ev & Hev & ->)].
  - done.
  - apply allocated_set_slot; [done |]. simpl. by apply (proj2 Ha _ _ Hev).
Qed.

Lemma allocated_alloc c this : allocated this → allocated (alloc c this).2.
Proof.
  intros [Hg Hs]. split; simpl; rewrite length_app; simpl; [lia |].
  eapply map_Forall_impl; [exact Hs |]. simpl. intros; lia.
Qed.

Lemma allocated_configEvent args this :
  allocated this → allocated (configEvent args this).
Proof.
  intros Ha. destruct args as [event config | config]; simpl.
  - destruct (P_EVENT_SLOTS this !! event) as [ev|] eqn:Hev.
    + apply allocated_set_slot; [by apply allocated_alloc |].
      simpl. rewrite length_app; simpl; lia.
    + apply allocated_set_slot; [by apply allocated_alloc |].
      simpl. rewrite length_app; simpl; lia.
  - destruct (allocated_alloc (spread (deref (P_CONFIG this) this) config)
                this Ha) as [_ Hs].
    split; simpl in *; [rewrite length_app; simpl; lia | done].
Qed.


Lemma event_config_add_ne flag event event' callback this :
  event ≠ event' →
  event_config event' (add flag event callback this).2
  = event_config event' this.
Proof.
  intros Hne. destruct (add_effect flag event callback this) as (ls & -> & _).
  unfold event_config; simpl. by rewrite lookup_insert_ne.
Qed.





End configuration.

(** ** Dispatch *)

Section dispatch_facts.

Context {U : Type}.
Variable code : cb → list value → script U.

Implicit Types (w : world U) (event : string) (args : list value).
Implicit Types (listener : ListenerInfo.t) (fuel i : nat).

Lemma dispatch_S fuel event args I C i w :
  dispatch code (S fuel) event args I C i w
  = match queue event w !! i with
    | None => Some (Normal true, w)
    | Some listener =>
        match body code (emit code fuel) event args I C i listener w with
        | None => None
        | Some (Leave r w) => Some (r, w)
        | Some (Continue i w) => dispatch code fuel event args I C i w
        end
    end.
Proof. done. Qed.

Lemma emit_empty fuel event args w :
  queue event w = [] → emit code fuel event args w = Some (Normal false, w).
Proof.
  unfold queue, emit, emit_with.
  destruct (P_EVENT_SLOTS (emitter w) !! event) as [ev|]; [| done].
  by intros ->.
Qed.

Lemma emit_nonempty fuel event args w :
  queue event w ≠ [] →
  emit code fuel event args w
  = dispatch code fuel event args (INTERRUPTABLE event w)
      (CONTINUE_ON_ERROR event w) 0 w.
Proof.
  unfold queue, emit, emit_with, INTERRUPTABLE, CONTINUE_ON_ERROR,
    config_in_force, event_config.
  destruct (P_EVENT_SLOTS (emitter w) !! event) as [ev|]; [| done].
  intros Hq. simpl. by destruct (EventInfo.listeners ev).
Qed.

Lemma loop_reaches_dispatch event args I C fuel i w fuel' i' w' :
  loop_reaches code event args I C fuel i w fuel' i' w' →
  dispatch code fuel event args I C i w
  = dispatch code fuel' event args I C i' w'.
Proof.
  induction 1 as [| fuel i w listener i1 w1 fuel' i' w' Hq Hb _ IH]; [done |].
  by rewrite dispatch_S, Hq, Hb.
Qed.

Lemma loop_reaches_trans event args I C fuel i w fuel1 i1 w1 fuel2 i2 w2 :
  loop_reaches code event args I C fuel i w fuel1 i1 w1 →
  loop_reaches code event args I C fuel1 i1 w1 fuel2 i2 w2 →
  loop_reaches code event args I C fuel i w fuel2 i2 w2.
Proof.
  induction 1; [done |]. intros. eapply loop_reaches_next; eauto.
Qed.

Lemma emit_reaches_dispatch fuel event args w fuel' i' w' :
  emit_reaches code fuel event args w fuel' i' w' →
  emit code fuel event args w
  = dispatch code fuel' event args (INTERRUPTABLE event w)
      (CONTINUE_ON_ERROR event w) i' w'.
Proof.
  intros [Hq Hl]. rewrite (emit_nonempty _ _ _ _ Hq).
  by apply loop_reaches_dispatch.
Qed.

Lemma emit_reaches_step fuel event args w fuel' i' w' listener i1 w1 :
  emit_reaches code fuel event args w (S fuel') i' w' →
  queue event w' !! i' = Some listener →
  body code (emit code fuel') event args (INTERRUPTABLE event w)
    (CONTINUE_ON_ERROR event w) i' listener w' = Some (Continue i1 w1) →
  emit_reaches code fuel event args w fuel' i1 w1.
Proof.
  intros [Hq Hl] Hi Hb. split; [done |].
  eapply loop_reaches_trans; [exact Hl |].
  eapply loop_reaches_next; [exact Hi | exact Hb | constructor].
Qed.

Lemma emit_reaches_leave fuel event args w fuel' i' w' listener r w1 :
  emit_reaches code fuel event args w (S fuel') i' w' →
  queue event w' !! i' = Some listener →
  body code (emit code fuel') event args (INTERRUPTABLE event w)
    (CONTINUE_ON_ERROR event w) i' listener w' = Some (Leave r w1) →
  emit code fuel event args w = Some (r, w1).
Proof.
  intros Hr Hi Hb.
  by rewrite (emit_reaches_dispatch _ _ _ _ _ _ _ Hr), dispatch_S, Hi, Hb.
Qed.

Lemma journal_finally listener event i w :
  journal (finally listener event i w) = journal w.
Proof.
  unfold finally. destruct (ListenerInfo.once listener); [| done].
  by destruct (P_EVENT_SLOTS (emitter w) !! event).
Qed.

Lemma store_finally listener event i w :
  store (finally listener event i w) = store w.
Proof.
  unfold finally. destruct (ListenerInfo.once listener); [| done].
  by destruct (P_EVENT_SLOTS (emitter w) !! event).
Qed.

(** C6: in an [emit] of an event configured with [interruptable = true],
    when the invocation of a listener returns [false] the dispatch stops
    there: [emit] returns [true] and the journal of invocations is the one
    the invocation left, so no listener after it is invoked; with
    [interruptable = false] the loop goes on to its next iteration. *)
Theorem interruption fuel event args w fuel' i w' listener w1 :
  emit_reaches code fuel event args w (S fuel') i w' →
  queue event w' !! i = Some listener →
  run (emit code fuel') (code (ListenerInfo.callback listener) args)
    (invoked event (ListenerInfo.callback listener) args w')
  = Some (Normal (VBool false), w1) →
  (INTERRUPTABLE event w = true →
   emit code fuel event args w
   = Some (Normal true, finally listener event i w1)
   ∧ journal (finally listener event i w1) = journal w1)
  ∧ (INTERRUPTABLE event w = false →
     emit_reaches code fuel event args w fuel' (next_index listener i)
       (finally listener event i w1)).
Proof.
  intros Hr Hi Hrun. split; intros HI.
  - split; [| apply journal_finally].
    eapply emit_reaches_leave; [exact Hr | exact Hi |].
    unfold body, try_catch. by rewrite Hrun, HI.
  - eapply emit_reaches_step; [exact Hr | exact Hi |].
    unfold body, try_catch. by rewrite Hrun, HI.
Qed.

End dispatch_facts.

Lemma interruption_witness :
  let w := Examples.start Examples.interruptable_emitter in
  let w' := invoked "x" 1 [] w in
  let w1 := invoked "x" 2 [] w' in
  emit Examples.code 4 "x" [] w = Some (Normal true, w1)
  ∧ journal w1 = [("x", 1, []); ("x", 2, [])].
Proof.
  intros w w' w1.
  assert (emit_reaches Examples.code 4 "x" [] w 3 1 w') as Hr.
  { split; [by vm_compute |].
    apply (loop_reaches_next _ _ _ _ _ 3 0 w (ListenerInfo.new 1 false) 1 w');
      [vm_compute; reflexivity | vm_compute; reflexivity |].
    apply loop_reaches_here. }
  destruct (interruption Examples.code 4 "x" [] w 2 1 w'
              (ListenerInfo.new 2 false) w1 Hr) as [Hstop _];
    [vm_compute; reflexivity | vm_compute; reflexivity |].
  destruct Hstop as [He _]; [vm_compute; reflexivity |].
  split; [exact He | reflexivity].
Defined.


(** [emit] reads [interruptable] once, when it starts: a callback that sets
    it during the dispatch has no effect on the dispatch under way.  Here
    [f9] makes ["x"] interruptable, [f2] returns [false], and [f1] is
    invoked all the same. *)
Lemma interruptable_is_read_at_the_start :
  let w := Examples.start Examples.late_interruptable_emitter in
  ∃ w',
    emit Examples.code 5 "x" [] w = Some (Normal true, w')
    ∧ interruptable <$> event_config "x" (emitter w') = Some true
    ∧ journal w' = [("x", 9, []); ("x", 2, []); ("x", 1, [])].
Proof.
  intros w.
  destruct (emit Examples.code 5 "x" [] w) as [[r w']|] eqn:He;
    [| by vm_compute in He].
  exists w'. vm_compute in He. injection He as <- <-.
  split_and!; vm_compute; reflexivity.
Qed.

(** ** What every run keeps *)

Section invariants.

Context {U : Type}.
Variable code : cb → list value → script U.

(** A property [P] of the world, and a condition [Q] on the calls that the
    callbacks make. *)
Variable P : world U → Prop.
Variable Q : call → Prop.

Hypothesis P_call :
  ∀ c w r w',
    Q c → P w → do_call (λ _ _ _, None) c w = Some (r, w') → P w'.
Hypothesis P_store : ∀ u w, P w → P (with_store u w).
Hypothesis P_invoked :
  ∀ event callback args w, P w → P (invoked event callback args w).
Hypothesis P_finally :
  ∀ listener event i w, P w → P (finally listener event i w).
Hypothesis code_calls : ∀ callback args, calls_only Q (code callback args).

Lemma do_call_keeps emit_rec c :
  (∀ event args, keeps P (emit_rec event args)) → Q c →
  keeps P (do_call emit_rec c).
Proof.
  intros Hrec Hc w r w' Hw Hdo.
  destruct c; try (by eapply (P_call _ w r w'); [exact Hc | exact Hw |]).
  simpl in Hdo.
  destruct (emit_rec event args w) as [[[b|e] w2]|] eqn:He; [| | done];
    injection Hdo as <- <-; by eapply Hrec.
Qed.

Lemma run_keeps emit_rec s :
  (∀ event args, keeps P (emit_rec event args)) → calls_only Q s →
  keeps P (run emit_rec s).
Proof.
  intros Hrec Hs. induction Hs as [v | e | c k Hc Hk IH | k Hk IH | u k Hk IH];
    intros w r w' Hw Hrun; simpl in Hrun.
  - by injection Hrun as <- <-.
  - by injection Hrun as <- <-.
  - destruct (do_call emit_rec c w) as [[r1 w1]|] eqn:Hdo; [| done].
    eapply IH; [| exact Hrun]. by eapply do_call_keeps.
  - by eapply IH.
  - eapply IH; [| exact Hrun]. by apply P_store.
Qed.

Lemma try_catch_keeps emit_rec event args I C listener w v w' :
  (∀ event args, keeps P (emit_rec event args)) → P w →
  try_catch code emit_rec event args I C listener w = Some (v, w') → P w'.
Proof.
  intros Hrec Hw. unfold try_catch.
  destruct (run emit_rec _ _) as [[[ret|e] w1]|] eqn:Hrun; [| | done].
  - apply run_keeps in Hrun; [| done | done | by apply P_invoked].
    destruct (I && _); by intros [= <- <-].
  - apply run_keeps in Hrun; [| done | done | by apply P_invoked].
    case_bool_decide; [by intros [= <- <-] |].
    destruct (emit_rec "error" [e] w1) as [[[b|e'] w2]|] eqn:He; [| | done].
    + apply Hrec in He; [| done]. destruct (negb C); by intros [= <- <-].
    + apply Hrec in He; [| done]. by intros [= <- <-].
Qed.

Lemma emit_with_keeps loop event args :
  (∀ event args I C i, keeps P (loop event args I C i)) →
  keeps P (emit_with loop event args).
Proof.
  intros Hloop w r w' Hw. unfold emit_with.
  destruct (P_EVENT_SLOTS (emitter w) !! event) as [ev|];
    [| by intros [= <- <-]].
  destruct (length (EventInfo.listeners ev) =? 0); [by intros [= <- <-] |].
  by apply Hloop.
Qed.

Lemma dispatch_keeps fuel event args I C i :
  keeps P (dispatch code fuel event args I C i).
Proof.
  revert event args I C i.
  induction fuel as [| fuel IH]; intros event args I C i w r w' Hw; [done |].
  rewrite dispatch_S.
  destruct (queue event w !! i) as [listener|]; [| by intros [= <- <-]].
  unfold body.
  destruct (try_catch code (emit code fuel) event args I C listener w)
    as [[v w1]|] eqn:Htc; [| done].
  eapply try_catch_keeps in Htc;
    [| intros; by apply emit_with_keeps | done].
  destruct v as [r1|].
  - intros [= <- <-]. by apply P_finally.
  - apply IH. by apply P_finally.
Qed.

Lemma emit_keeps fuel event args : keeps P (emit code fuel event args).
Proof. apply emit_with_keeps. intros. apply dispatch_keeps. Qed.

End invariants.

(** The calls other than [emit] do not look at the fuel. *)
Lemma do_call_method {U : Type} (c : call) (w : world U) r w' :
  do_call (λ _ _ _, None) c w = Some (r, w') →
  store w' = store w ∧ journal w' = journal w
  ∧ ((∃ flag event callback,
        emitter w' = (add flag event callback (emitter w)).2)
     ∨ (∃ event which, emitter w' = (off event which (emitter w)).2)
     ∨ (∃ args, c = call_configEvent args
                ∧ emitter w' = configEvent args (emitter w))
     ∨ emitter w' = emitter w).
Proof.
  destruct c; simpl.
  - rewrite on_add. destruct (add false event callback (emitter w)) eqn:Ha.
    intros [= <- <-]. split_and!; [done | done |]. left.
    exists false, event, callback. by rewrite Ha.
  - rewrite once_add. destruct (add true event callback (emitter w)) eqn:Ha.
    intros [= <- <-]. split_and!; [done | done |]. left.
    exists true, event, callback. by rewrite Ha.
  - destruct (off event callback (emitter w)) eqn:Ho.
    intros [= <- <-]. split_and!; [done | done |]. right; left.
    exists event, callback. by rewrite Ho.
  - intros [= <- <-]. split_and!; [done | done |]. right; right; left. eauto.
  - done.
  - intros [= <- <-]. split_and!; [done | done |]. by repeat right.
  - intros [= <- <-]. split_and!; [done | done |]. by repeat right.
  - intros [= <- <-]. split_and!; [done | done |]. by repeat right.
Qed.

(** ** The bound on the number of listeners *)

Section limits.

Implicit Types (this : t) (event : string) (callback : cb).







Lemma within_limits_constructor (given : option PartialConfiguration) :
  (0 ≤ default 10 (given ≫= p_maxListeners))%Z →
  within_limits (constructor given).
Proof.
  intros Hg. split; [| apply map_Forall_empty].
  unfold deref, constructor; simpl. by destruct given as [[? ? [m|]]|].
Qed.

Lemma emitter_finally {U : Type} listener event i (w : world U) :
  emitter (finally listener event i w) = emitter w
  ∨ ∃ ev, P_EVENT_SLOTS (emitter w) !! event = Some ev
          ∧ emitter (finally listener event i w)
            = set_slot event
                (EventInfo.mk (EventInfo.config ev)
                   (splice i (Some 1) (EventInfo.listeners ev)).2)
                (emitter w).
Proof.
  unfold finally. destruct (ListenerInfo.once listener); [| by left].
  destruct (P_EVENT_SLOTS (emitter w) !! event) as [ev|] eqn:Hev; [| by left].
  right. by exists ev.
Qed.

Lemma allocated_finally {U : Type} listener event i (w : world U) :
  allocated (emitter w) → allocated (emitter (finally listener event i w)).
Proof.
  intros Ha.
  destruct (emitter_finally listener event i w) as [-> | (ev & Hev & ->)];
    [done |].
  apply allocated_set_slot; [done |]. simpl. by apply (proj2 Ha _ _ Hev).
Qed.


(** Whatever the callbacks do, every reference stays allocated. *)
Lemma emit_allocated {U : Type} (code : cb → list value → script U)
    fuel event args (w : world U) r w' :
  allocated (emitter w) → emit code fuel event args w = Some (r, w') →
  allocated (emitter w').
Proof.
  apply (emit_keeps code (λ w, allocated (emitter w)) (λ _, True)); try done.
  - intros c w0 r0 w0' _ Ha Hdo.
    destruct (do_call_method _ _ _ _ Hdo)
      as (_ & _ & [(flag & e & f & ->) | [(e & f & ->) | [(a & _ & ->) | ->]]]).
    + by apply allocated_add.
    + by apply allocated_off.
    + by apply allocated_configEvent.
    + done.
  - intros. by apply allocated_finally.
  - intros callback args0. generalize (code callback args0).
    induction s; constructor; auto.
Qed.





End limits.

(** ** Fuel *)

Section fuel.

Context {U : Type}.
Variable code : cb → list value → script U.

Implicit Types (w : world U) (event : string) (args : list value).
Implicit Types (f g : string → list value → world U → @run_result U bool).

Lemma do_call_mono f g c : emit_extends f g → extends (do_call f c) (do_call g c).
Proof.
  intros Hfg w [r w'] Hdo. destruct c; try done. simpl in *.
  destruct (f event args w) as [[[b|e] w2]|] eqn:Hf; [| | done];
    by rewrite (Hfg _ _ _ _ Hf).
Qed.

Lemma run_mono f g s : emit_extends f g → extends (run f s) (run g s).
Proof.
  intros Hfg. induction s as [v | e | c k IH | k IH | u k IH];
    intros w [r w'] Hrun; simpl in *; try done.
  - destruct (do_call f c w) as [[r1 w1]|] eqn:Hdo; [| done].
    rewrite (do_call_mono f g c Hfg _ _ Hdo). by apply IH.
  - by apply IH.
  - by apply IH.
Qed.

Lemma try_catch_mono f g event args I C listener :
  emit_extends f g →
  extends (try_catch code f event args I C listener)
    (try_catch code g event args I C listener).
Proof.
  intros Hfg w [v w'] Htc. unfold try_catch in *.
  destruct (run f _ _) as [[r w1]|] eqn:Hrun; [| done].
  rewrite (run_mono f g _ Hfg _ _ Hrun).
  destruct r as [ret | e]; [done |].
  case_bool_decide; [done |].
  destruct (f "error" [e] w1) as [[r2 w2]|] eqn:He; [| done].
  by rewrite (Hfg _ _ _ _ He).
Qed.

Lemma emit_with_mono
    (loop loop' : string → list value → bool → bool → nat → world U
                  → @run_result U bool) :
  (∀ event args I C i,
     extends (loop event args I C i) (loop' event args I C i)) →
  emit_extends (emit_with loop) (emit_with loop').
Proof.
  intros Hl event args w r. unfold emit_with.
  destruct (P_EVENT_SLOTS (emitter w) !! event) as [ev|]; [| done].
  destruct (length (EventInfo.listeners ev) =? 0); [done |]. apply Hl.
Qed.

(** More fuel changes nothing to a run that has finished. *)
Lemma dispatch_mono fuel fuel' event args I C i :
  fuel ≤ fuel' →
  extends (dispatch code fuel event args I C i)
    (dispatch code fuel' event args I C i).
Proof.
  revert fuel' event args I C i.
  induction fuel as [| fuel IH]; intros fuel' event args I C i Hle w r;
    [done |].
  destruct fuel' as [| fuel']; [lia |]. rewrite !dispatch_S.
  destruct (queue event w !! i) as [listener|]; [| done].
  unfold body.
  destruct (try_catch code (emit code fuel) event args I C listener w)
    as [[v w1]|] eqn:Htc; [| done].
  assert (emit_extends (emit code fuel) (emit code fuel')) as Hext.
  { apply emit_with_mono. intros. apply IH. lia. }
  rewrite (try_catch_mono _ _ _ _ _ _ _ Hext _ _ Htc).
  destruct v; [done |]. apply IH. lia.
Qed.

Lemma emit_mono fuel fuel' event args w r :
  fuel ≤ fuel' →
  emit code fuel event args w = Some r →
  emit code fuel' event args w = Some r.
Proof.
  intros Hle. apply emit_with_mono. intros. by apply dispatch_mono.
Qed.

End fuel.

(** ** The records of the table stay *)

Lemma emit_record_stays {U : Type} (code : cb → list value → script U)
    fuel event args (w : world U) r w' event' :
  is_Some (P_EVENT_SLOTS (emitter w) !! event') →
  emit code fuel event args w = Some (r, w') →
  is_Some (P_EVENT_SLOTS (emitter w') !! event').
Proof.
  apply (emit_keeps code
           (λ w, is_Some (P_EVENT_SLOTS (emitter w) !! event')) (λ _, True));
    try done.
  - intros c w0 r0 w0' _ Hs Hdo.
    destruct (do_call_method _ _ _ _ Hdo)
      as (_ & _ & [(flag & e & f & ->) | [(e & f & ->) | [(a & _ & ->) | ->]]]).
    + destruct (add_effect flag e f (emitter w0)) as (ls & -> & _). simpl.
      rewrite lookup_insert_is_Some. destruct (decide (e = event')); auto.
    + destruct (off_effect e f (emitter w0)) as [-> | (ev & _ & ->)]; [done |].
      simpl. rewrite lookup_insert_is_Some.
      destruct (decide (e = event')); auto.
    + destruct a as [e config | config]; simpl; [| done].
      destruct (P_EVENT_SLOTS (emitter w0) !! e); simpl;
        rewrite lookup_insert_is_Some; destruct (decide (e = event')); auto.
    + done.
  - intros listener e i w0 Hs.
    destruct (emitter_finally listener e i w0) as [-> | (ev & _ & ->)];
      [done |].
    simpl. rewrite lookup_insert_is_Some. destruct (decide (e = event')); auto.
  - intros callback args0. generalize (code callback args0).
    induction s; constructor; auto.
Qed.

(** ** Listeners that throw *)

Section escalation.

Context {U : Type}.
Variable code : cb → list value → script U.

Implicit Types (w : world U) (event : string) (args : list value).
Implicit Types (listener : ListenerInfo.t) (fuel i : nat).

(** C4, amended: when the invocation of a listener throws [e] during an
    [emit] of an event other than ["error"], [emit("error", e)] is called on
    the same emitter; if that call returns, then with
    [continueOnError = false] the dispatch stops there, [emit] returns [true]
    and no further listener is invoked, and with [continueOnError = true] the
    loop goes on; if that call throws, because a listener of ["error"] threw,
    the outer [emit] throws the same value.  When the invocation of a
    listener throws during an [emit] of ["error"], [emit] throws that value
    to its caller.  In every case the [finally] block has run. *)
Theorem listener_throws fuel event args w fuel' i w' listener e w1 :
  emit_reaches code fuel event args w (S fuel') i w' →
  queue event w' !! i = Some listener →
  run (emit code fuel') (code (ListenerInfo.callback listener) args)
    (invoked event (ListenerInfo.callback listener) args w')
  = Some (Throw e, w1) →
  (event = "error" →
   emit code fuel event args w
   = Some (Throw e, finally listener event i w1))
  ∧ (event ≠ "error" →
     ∀ r w2,
       emit code fuel' "error" [e] w1 = Some (r, w2) →
       match r with
       | Throw e' =>
           emit code fuel event args w
           = Some (Throw e', finally listener event i w2)
       | Normal _ =>
           if CONTINUE_ON_ERROR event w
           then emit_reaches code fuel event args w fuel'
                  (next_index listener i) (finally listener event i w2)
           else emit code fuel event args w
                = Some (Normal true, finally listener event i w2)
                ∧ journal (finally listener event i w2) = journal w2
       end).
Proof.
  intros Hr Hi Hrun. split.
  - intros ->. eapply emit_reaches_leave; [exact Hr | exact Hi |].
    unfold body, try_catch. by rewrite Hrun.
  - intros Hne r w2 He.
    assert (bool_decide (event = "error") = false) as Hb
      by by apply bool_decide_eq_false.
    destruct r as [b | e'].
    + destruct (CONTINUE_ON_ERROR event w) eqn:HC.
      * eapply emit_reaches_step; [exact Hr | exact Hi |].
        unfold body, try_catch. by rewrite Hrun, Hb, He, HC.
      * split; [| apply journal_finally].
        eapply emit_reaches_leave; [exact Hr | exact Hi |].
        unfold body, try_catch. by rewrite Hrun, Hb, He, HC.
    + eapply emit_reaches_leave; [exact Hr | exact Hi |].
      unfold body, try_catch. by rewrite Hrun, Hb, He.
Qed.

End escalation.

(** C4, as the claim has it, fails: with [f3], which throws ["boom"], on
    ["x"] and [f4], which throws ["bang"], on ["error"], and
    [continueOnError = false], [emit("x")] does not return [true]: it
    throws ["bang"]. *)
Lemma escalation_may_throw :
  let w := Examples.start Examples.failing_emitter in
  CONTINUE_ON_ERROR "x" w = false
  ∧ run (emit Examples.code 4) (Examples.code 3 []) (invoked "x" 3 [] w)
    = Some (Throw (VStr "boom"), invoked "x" 3 [] w)
  ∧ emit Examples.code 5 "x" [] w
    = Some (Throw (VStr "bang"),
            invoked "error" 4 [VStr "boom"] (invoked "x" 3 [] w)).
Proof. split_and!; vm_compute; reflexivity. Qed.

Lemma listener_throws_witness :
  let w := Examples.start Examples.handled_emitter in
  let w1 := invoked "x" 3 [] w in
  let w2 := invoked "error" 1 [VStr "boom"] w1 in
  emit Examples.code 4 "error" [VStr "boom"] w1 = Some (Normal true, w2)
  ∧ emit Examples.code 5 "x" [] w = Some (Normal true, w2)
  ∧ journal w2 = [("x", 3, []); ("error", 1, [VStr "boom"])].
Proof.
  intros w w1 w2.
  assert (emit_reaches Examples.code 5 "x" [] w 5 0 w) as Hr
    by (split; [by vm_compute | apply loop_reaches_here]).
  assert (emit Examples.code 4 "error" [VStr "boom"] w1 = Some (Normal true, w2))
    as He by (vm_compute; reflexivity).
  destruct (listener_throws Examples.code 5 "x" [] w 4 0 w
              (ListenerInfo.new 3 false) (VStr "boom") w1 Hr) as [_ Hx];
    [vm_compute; reflexivity | vm_compute; reflexivity |].
  specialize (Hx ltac:(done) _ _ He). simpl in Hx.
  change (CONTINUE_ON_ERROR "x" w) with false in Hx.
  destruct Hx as [Hemit _].
  split; [exact He |]. split; [exact Hemit | reflexivity].
Defined.

(** ** Listeners registered once *)

Section once_facts.

Context {U : Type}.
Variable code : cb → list value → script U.

Implicit Types (w : world U) (event : string) (args : list value).
Implicit Types (listener : ListenerInfo.t) (fuel i : nat).

Lemma queue_finally_once listener event i w :
  ListenerInfo.once listener = true →
  queue event (finally listener event i w)
  = (splice i (Some 1) (queue event w)).2.
Proof.
  intros Ho. unfold finally, queue. rewrite Ho.
  destruct (P_EVENT_SLOTS (emitter w) !! event) as [ev|] eqn:Hev.
  - simpl. by rewrite lookup_insert_eq.
  - rewrite Hev. by rewrite splice_one_left, take_nil, drop_nil.
Qed.

Lemma queue_finally_plain listener event event' i w :
  ListenerInfo.once listener = false →
  queue event' (finally listener event i w) = queue event' w.
Proof. intros Ho. unfold finally. by rewrite Ho. Qed.

Lemma queue_finally_ne listener event event' i w :
  event ≠ event' →
  queue event' (finally listener event i w) = queue event' w.
Proof.
  intros Hne. unfold finally, queue.
  destruct (ListenerInfo.once listener); [| done].
  destruct (P_EVENT_SLOTS (emitter w) !! event) as [ev|]; simpl; [| done].
  by rewrite lookup_insert_ne.
Qed.

Lemma listeners_queue event w :
  listeners event (emitter w) = map ListenerInfo.callback (queue event w).
Proof.
  unfold listeners, queue.
  by destruct (P_EVENT_SLOTS (emitter w) !! event).
Qed.


End once_facts.



(** ** What [emit] returns *)

Section result.

Context {U : Type}.
Variable code : cb → list value → script U.

Implicit Types (w : world U) (event : string) (args : list value).
Implicit Types (listener : ListenerInfo.t) (fuel i : nat).







(** *** Callbacks that leave the emitter alone *)

Hypothesis code_reads : ∀ callback args, calls_only reads (code callback args).

Lemma run_reads emit_rec s w :
  calls_only reads s →
  ∃ r u, run emit_rec s w = Some (r, with_store u w).
Proof.
  intros Hs. revert w.
  induction Hs as [v | e | c k Hc Hk IH | k Hk IH | u k Hk IH]; intros w;
    simpl.
  - exists (Normal v), (store w). by destruct w.
  - exists (Throw e), (store w). by destruct w.
  - destruct c; try done; simpl; apply IH.
  - apply IH.
  - destruct (IH (with_store u w)) as (r & u' & ->). by exists r, u'.
Qed.



(** An [emit] of ["error"] whose callbacks leave the emitter alone touches
    the listeners of ["error"] only. *)
Lemma dispatch_error_reads fuel args I C i w r w' event :
  event ≠ "error" →
  dispatch code fuel "error" args I C i w = Some (r, w') →
  queue event w' = queue event w.
Proof.
  intros Hne. revert i w.
  induction fuel as [| fuel IH]; intros i w; [done |].
  rewrite dispatch_S.
  destruct (queue "error" w !! i) as [listener|]; [| by intros [= <- <-]].
  unfold body, try_catch.
  destruct (run_reads (emit code fuel)
              (code (ListenerInfo.callback listener) args)
              (invoked "error" (ListenerInfo.callback listener) args w)
              (code_reads _ _)) as (r1 & u & ->).
  rewrite bool_decide_eq_true_2 by done.
  assert (∀ w0 : world U,
            queue event w0 = queue event w →
            queue event (finally listener "error" i w0) = queue event w)
    as Hf by (intros w0 <-; by apply queue_finally_ne).
  destruct r1 as [ret | e].
  - destruct (I && _).
    + intros [= <- <-]. by apply Hf.
    + intros Hd. apply IH in Hd. rewrite Hd. by apply Hf.
  - intros [= <- <-]. by apply Hf.
Qed.

(** Callbacks that leave the emitter alone leave the listeners of the event
    being dispatched as they are, the escalation to ["error"] included. *)
Lemma try_catch_reads fuel event args I C listener w v w1 :
  try_catch code (emit code fuel) event args I C listener w = Some (v, w1) →
  queue event w1 = queue event w.
Proof.
  unfold try_catch.
  destruct (run_reads (emit code fuel)
              (code (ListenerInfo.callback listener) args)
              (invoked event (ListenerInfo.callback listener) args w)
              (code_reads _ _)) as (r1 & u & ->).
  destruct r1 as [ret | e].
  - destruct (I && _); by intros [= <- <-].
  - case_bool_decide as Hev; [by intros [= <- <-] |].
    set (w0 := with_store u _).
    destruct (emit code fuel "error" [e] w0) as [[r2 w2]|] eqn:He; [| done].
    assert (queue event w2 = queue event w) as Hq.
    { destruct (decide (queue "error" w0 = [])) as [Hnil | Hnil].
      - rewrite (emit_empty _ _ _ _ _ Hnil) in He. by injection He as <- <-.
      - rewrite (emit_nonempty _ _ _ _ _ Hnil) in He.
        by apply (dispatch_error_reads _ _ _ _ _ _ _ _ event) in He. }
    destruct r2; [destruct (negb C) |]; by intros [= <- <-].
Qed.

End result.




(** ** An [emit] whose callbacks leave the emitter alone *)

Section visits.

Context {U : Type}.
Variable code : cb → list value → script U.
Hypothesis code_reads : ∀ callback args, calls_only reads (code callback args).

Implicit Types (w : world U) (event : string) (args : list value).
Implicit Types (listener : ListenerInfo.t) (fuel i n m : nat).
Implicit Types (q : list ListenerInfo.t).

Lemma after_visits_0 q : after_visits 0 q = q.
Proof. unfold after_visits. by rewrite take_0, drop_0. Qed.

Lemma after_visits_lookup n q :
  after_visits n q
  !! length (filter (λ l, ListenerInfo.once l = false) (take n q))
  = q !! n.
Proof.
  unfold after_visits.
  rewrite lookup_app_r, Nat.sub_diag, lookup_drop by done.
  f_equal. lia.
Qed.

Lemma after_visits_S n q listener :
  q !! n = Some listener →
  after_visits (S n) q
  = (if ListenerInfo.once listener
     then (splice
             (length (filter (λ l, ListenerInfo.once l = false) (take n q)))
             (Some 1) (after_visits n q)).2
     else after_visits n q)
  ∧ length (filter (λ l, ListenerInfo.once l = false) (take (S n) q))
    = next_index listener
        (length (filter (λ l, ListenerInfo.once l = false) (take n q))).
Proof.
  intros Hn. unfold after_visits, next_index.
  rewrite (take_S_r _ _ _ Hn), filter_app, (drop_S _ _ _ Hn).
  destruct (ListenerInfo.once listener) eqn:Ho.
  - rewrite filter_cons_False, filter_nil, app_nil_r by (by rewrite Ho).
    split; [| done]. rewrite splice_one_left.
    rewrite take_app_length, drop_app_ge by lia.
    replace (S _ - _) with 1 by lia. done.
  - rewrite filter_cons_True, filter_nil by done.
    rewrite <- app_assoc, length_app. simpl. split; [done | lia].
Qed.

(** The journal of an [emit] of ["error"]: invocations of listeners of
    ["error"] and nothing else. *)
Lemma dispatch_error_journal fuel args I C i w r w' :
  dispatch code fuel "error" args I C i w = Some (r, w') →
  ∃ j, journal w' = journal w ++ j ∧ Forall (λ x, x.1.1 = "error") j.
Proof.
  revert i w. induction fuel as [| fuel IH]; intros i w; [done |].
  rewrite dispatch_S.
  destruct (queue "error" w !! i) as [listener|].
  2: { intros [= <- <-]. exists []. by rewrite app_nil_r. }
  unfold body, try_catch.
  destruct (run_reads (emit code fuel)
              (code (ListenerInfo.callback listener) args)
              (invoked "error" (ListenerInfo.callback listener) args w)
              (code_reads _ _)) as (r1 & u & ->).
  rewrite bool_decide_eq_true_2 by done.
  assert (∀ r0 w0,
            (∃ j, journal w0
                  = journal (finally listener "error" i
                               (with_store u
                                  (invoked "error"
                                     (ListenerInfo.callback listener) args w)))
                    ++ j
                  ∧ Forall (λ x, x.1.1 = "error") j) →
            Some (r0, w0) = Some (r, w') →
            ∃ j, journal w' = journal w ++ j
                 ∧ Forall (λ x, x.1.1 = "error") j) as Hend.
  { intros r0 w0 (j & Hj & Hall) [= <- <-].
    rewrite journal_finally in Hj. simpl in Hj.
    exists (("error", ListenerInfo.callback listener, args) :: j).
    split; [by rewrite Hj, <- app_assoc | by constructor]. }
  assert (∀ w0 : world U, ∃ j, journal w0 = journal w0 ++ j
                               ∧ Forall (λ x, x.1.1 = "error") j) as Hnil
    by (intros w0; exists []; by rewrite app_nil_r).
  destruct r1 as [ret | e].
  - destruct (I && _); [by apply Hend |].
    intros Hd. destruct (IH _ _ Hd) as (j & Hj & Hall).
    eapply Hend; [| done]. eauto.
  - by apply Hend.
Qed.

(** What the [try] and the [catch] block add to the journal: the invocation
    of the listener, and then invocations of listeners of ["error"]. *)
Lemma try_catch_journal fuel event args I C listener w v w1 :
  try_catch code (emit code fuel) event args I C listener w = Some (v, w1) →
  ∃ j, journal w1
       = journal w ++ (event, ListenerInfo.callback listener, args) :: j
       ∧ invocations_of event j = [].
Proof.
  unfold try_catch.
  destruct (run_reads (emit code fuel)
              (code (ListenerInfo.callback listener) args)
              (invoked event (ListenerInfo.callback listener) args w)
              (code_reads _ _)) as (r1 & u & ->).
  assert (∀ v0, Some (v0, with_store u
                        (invoked event (ListenerInfo.callback listener) args w))
                = Some (v, w1) →
          ∃ j, journal w1
               = journal w ++ (event, ListenerInfo.callback listener, args) :: j
               ∧ invocations_of event j = []) as Hsame.
  { intros v0 [= <- <-]. by exists []. }
  destruct r1 as [ret | e].
  - destruct (I && _); apply Hsame.
  - case_bool_decide as Hev; [apply Hsame |].
    set (w0 := with_store u _).
    destruct (emit code fuel "error" [e] w0) as [[r2 w2]|] eqn:He; [| done].
    assert (∃ j, journal w2 = journal w0 ++ j
                 ∧ Forall (λ x, x.1.1 = "error") j) as (j & Hj & Hall).
    { destruct (decide (queue "error" w0 = [])) as [Hnil | Hnil].
      - rewrite (emit_empty _ _ _ _ _ Hnil) in He. injection He as <- <-.
        exists []. by rewrite app_nil_r.
      - rewrite (emit_nonempty _ _ _ _ _ Hnil) in He.
        by apply dispatch_error_journal in He. }
    assert (invocations_of event j = []) as Hnone.
    { unfold invocations_of. clear Hj.
      induction Hall as [| x j Hx _ IH]; [done |].
      rewrite filter_cons_False; [done |]. by rewrite Hx. }
    intros Hv. exists j. split; [| done].
    assert (w1 = w2) as -> by (destruct r2; [destruct (negb C) |]; congruence).
    rewrite Hj. simpl. by rewrite <- app_assoc.
Qed.

(** The loop visits the entries of the queue one after the other, from the
    [n]-th on, each once: when it ends, the first [m] entries have been
    visited, the journal has their invocations in that order, and those of
    them registered with [once] are gone. *)
Lemma dispatch_reads_visits fuel event args I C q n w r w' :
  queue event w = after_visits n q →
  dispatch code fuel event args I C
    (length (filter (λ l, ListenerInfo.once l = false) (take n q))) w
  = Some (r, w') →
  ∃ m j,
    n ≤ m ∧ m ≤ length q `max` n ∧ (n < length q → n < m)
    ∧ queue event w' = after_visits m q
    ∧ journal w' = journal w ++ j
    ∧ invocations_of event j
      = map (λ l, (event, ListenerInfo.callback l, args)) (drop n (take m q)).
Proof.
  revert n w. induction fuel as [| fuel IH]; intros n w Hq; [done |].
  rewrite dispatch_S, Hq, after_visits_lookup.
  destruct (q !! n) as [listener|] eqn:Hn.
  2: { intros [= <- <-]. exists n, []. rewrite app_nil_r.
       apply lookup_ge_None in Hn.
       split_and!; [done | lia | lia | done | done |].
       by rewrite drop_ge by (rewrite length_take; lia). }
  pose proof (lookup_lt_Some _ _ _ Hn) as Hlt.
  unfold body.
  destruct (try_catch code (emit code fuel) event args I C listener w)
    as [[v w1]|] eqn:Htc; [| done].
  pose proof (try_catch_reads code code_reads _ _ _ _ _ _ _ _ _ Htc) as Hq1.
  destruct (try_catch_journal _ _ _ _ _ _ _ _ _ Htc) as (j1 & Hj1 & Hnone).
  destruct (after_visits_S n q listener Hn) as [HqS HiS].
  set (i := length (filter (λ l, ListenerInfo.once l = false) (take n q))) in *.
  assert (queue event (finally listener event i w1) = after_visits (S n) q)
    as HqS'.
  { rewrite HqS. destruct (ListenerInfo.once listener) eqn:Ho.
    - by rewrite queue_finally_once, Hq1, Hq.
    - by rewrite queue_finally_plain, Hq1, Hq. }
  assert (∀ m, S n ≤ m → m ≤ length q →
            drop n (take m q) = listener :: drop (S n) (take m q)) as Hdrop.
  { intros m Hm Hm'. apply drop_S. rewrite lookup_take_lt by lia. done. }
  destruct v as [r0|].
  - intros [= <- <-]. exists (S n), ((event, ListenerInfo.callback listener, args) :: j1).
    rewrite journal_finally.
    split_and!; [lia | lia | lia | done | done |].
    rewrite Hdrop by lia.
    rewrite drop_ge by (rewrite length_take; lia).
    unfold invocations_of in *. rewrite filter_cons_True by done.
    by rewrite Hnone.
  - rewrite <- HiS. intros Hd.
    destruct (IH (S n) _ HqS' Hd) as (m & j & Hm & Hm' & _ & Hqm & Hj & Hinv).
    exists m, ((event, ListenerInfo.callback listener, args) :: j1 ++ j).
    rewrite journal_finally in Hj.
    split_and!; [lia | lia | lia | done | |].
    + rewrite Hj, Hj1, <- app_assoc. done.
    + rewrite Hdrop by lia.
      unfold invocations_of in *. rewrite filter_cons_True by done.
      by rewrite filter_app, Hnone, Hinv.
Qed.

(** X8: when the callbacks leave the emitter alone, an [emit] on an event
    with listeners invokes the listeners of the event in the order of the
    sequence, each at most once, from the first up to the [m]-th, where the
    dispatch ends; after the call the entries among them that were
    registered with [once] are gone from the sequence and every other entry
    is where it was. *)
Lemma emit_reads_visits fuel event args w r w' :
  queue event w ≠ [] →
  emit code fuel event args w = Some (r, w') →
  ∃ m j,
    0 < m ∧ m ≤ length (queue event w)
    ∧ queue event w' = after_visits m (queue event w)
    ∧ journal w' = journal w ++ j
    ∧ invocations_of event j
      = map (λ l, (event, ListenerInfo.callback l, args))
          (take m (queue event w)).
Proof.
  intros Hne. rewrite (emit_nonempty _ _ _ _ _ Hne). intros Hd.
  assert (0 < length (queue event w)) as Hlen
    by (destruct (queue event w); [done | simpl; lia]).
  destruct (dispatch_reads_visits fuel event args (INTERRUPTABLE event w)
              (CONTINUE_ON_ERROR event w) (queue event w) 0 w r w')
    as (m & j & _ & Hm & Hpos & Hq & Hj & Hinv).
  { by rewrite after_visits_0. }
  { by rewrite take_0. }
  rewrite drop_0 in Hinv.
  exists m, j. split_and!; try done; [by apply Hpos | lia].
Qed.

End visits.

(** ** Filters *)

Section dictionaries.

Context {V : Type}.
Implicit Types (o : Dict.t V) (k : string) (v : V).

Lemma get_set_eq o k v : Dict.get (Dict.set o k v) k = Some v.
Proof.
  induction o as [| [k' v'] o IH]; simpl.
  - by rewrite decide_True.
  - case_decide as Hk; simpl; [by rewrite decide_True |].
    by rewrite decide_False.
Qed.


Lemma get_is_Some o k : is_Some (Dict.get o k) ↔ k ∈ map fst o.
Proof.
  induction o as [| [k' v'] o IH]; simpl.
  - split; [by intros [? ?] | by intros ?%elem_of_nil].
  - case_decide as Hk.
    + subst k'. split; [intros _; by left | by eauto].
    + rewrite IH. split; [by right |].
      by intros [-> | ?]%elem_of_cons.
Qed.

Lemma insert_index_perm n k (l : list (N * string)) :
  Dict.insert_index n k l ≡ₚ (n, k) :: l.
Proof.
  induction l as [| [m k'] l IH]; simpl; [done |].
  destruct (n <? m)%N; [done |]. rewrite IH. apply Permutation_swap.
Qed.

(** [for ... in] visits every key of the dictionary, once for each time it
    is there. *)
Lemma keys_perm o : Dict.keys o ≡ₚ map fst o.
Proof.
  unfold Dict.keys. induction o as [| [k v] o IH]; simpl; [done |].
  destruct (Dict.array_index k) as [n|]; simpl.
  - by rewrite insert_index_perm, <- IH.
  - by rewrite <- Permutation_middle, IH.
Qed.

(** Without a key that is an array index, the order is the order in which
    the keys were created. *)
Lemma keys_creation_order o :
  Forall (λ kv, Dict.array_index kv.1 = None) o → Dict.keys o = map fst o.
Proof.
  intros Ho. unfold Dict.keys.
  assert (Dict.index_keys o = [] ∧ Dict.string_keys o = map fst o)
    as [-> ->]; [| done].
  induction Ho as [| [k v] o Hk _ [IH1 IH2]]; simpl; [done |].
  simpl in Hk. rewrite Hk. by rewrite IH1, IH2.
Qed.

End dictionaries.

Section pipeline.

Variable code : cb → value → list value → FilterManager.outcome.

Lemma filter_loop_chain (keys : list string) (callbacks : Dict.t cb) v args :
  Forall (λ k, is_Some (Dict.get callbacks k)) keys →
  FilterManager.filter_loop code keys callbacks v args
  = Pipeline.chain code (omap (Dict.get callbacks) keys) v args.
Proof.
  intros Hk. revert v.
  induction Hk as [| k keys [f Hf] _ IH]; intros v; simpl; [done |].
  rewrite Hf; simpl. destruct (code f v args); simpl; auto.
Qed.

Lemma keys_registered (callbacks : Dict.t cb) :
  Forall (λ k, is_Some (Dict.get callbacks k)) (Dict.keys callbacks).
Proof.
  apply Forall_forall. intros k Hk. apply get_is_Some.
  by rewrite <- (keys_perm callbacks).
Qed.


End pipeline.

(** The keys that are array indices come first, whatever the order of
    registration. *)
Lemma keys_numeric_first :
  Dict.keys [("b", 1); ("2", 2); ("a", 3); ("1", 4); ("01", 5)]
  = ["1"; "2"; "b"; "a"; "01"].
Proof. reflexivity. Qed.

Lemma filter_two_filters :
  FilterManager.filter FilterExamples.code "n" (VNum 0) []
    FilterExamples.two_filters
  = Normal (VNum 2)
  ∧ FilterManager.filter FilterExamples.code "m" (VNum 0) []
      FilterExamples.two_filters
    = Normal (VNum 0).
Proof. split; vm_compute; reflexivity. Qed.

Section registration_of_filters.

Implicit Types (this : FilterManager.t) (key : string) (callback : cb).

Lemma register_loop_prefix pre rest key callback this :
  NoDup pre →
  (∀ s, s ∈ pre → Dict.get (Pipeline.under s this) key = None) →
  ∃ this1,
    FilterManager.register_loop (pre ++ rest) key callback this
    = FilterManager.register_loop rest key callback this1
    ∧ (∀ s, s ∈ pre → Dict.get (Pipeline.under s this1) key = Some callback)
    ∧ (∀ s, s ∉ pre →
            FilterManager._filters this1 !! s
            = FilterManager._filters this !! s).
Proof.
  intros Hnd. revert this.
  induction Hnd as [| s pre Hs Hnd IH]; intros this Hfree.
  - exists this. split_and!; [done | | done]. by intros s ?%elem_of_nil.
  - assert (Dict.get (Pipeline.under s this) key = None) as Hget
      by (apply Hfree; by left).
    set (sub := Pipeline.under s this).
    set (this' := FilterManager.mk
                    (<[s := Dict.set sub key callback]>
                       (FilterManager._filters this))).
    assert (FilterManager.register_loop ((s :: pre) ++ rest) key callback this
            = FilterManager.register_loop (pre ++ rest) key callback this')
      as Hstep.
    { simpl. unfold Pipeline.under in *.
      destruct (FilterManager._filters this !! s) as [sub0|] eqn:Hsub;
        simpl in *.
      - rewrite Hsub; simpl. by rewrite Hget.
      - rewrite lookup_insert_eq; simpl. unfold this'.
        by rewrite insert_insert_eq. }
    destruct (IH this') as (this1 & Hloop & Hin & Hout).
    { intros s' Hs'. unfold Pipeline.under, this'; simpl.
      rewrite lookup_insert_ne by (intros ->; done).
      apply Hfree. by right. }
    exists this1. split_and!.
    + by rewrite Hstep.
    + intros s' [-> | Hs']%elem_of_cons; [| by apply Hin].
      unfold Pipeline.under. rewrite Hout by done. unfold this'; simpl.
      rewrite lookup_insert_eq; simpl. apply get_set_eq.
    + intros s' Hs'. apply not_elem_of_cons in Hs' as [Hne Hs'].
      rewrite Hout by done. unfold this'; simpl.
      by rewrite lookup_insert_ne.
Qed.

(** C10: [register] with an array of names is not atomic.  When the key is
    free under the names [pre] and taken under the name [dup] that follows
    them in the array, the call throws the duplicate-registration error for
    [dup], the callback stays registered under every name of [pre], and what
    is registered under the other names, those after [dup] among them, is
    as it was. *)
Theorem register_is_not_atomic pre dup post key callback this :
  NoDup pre → dup ∉ pre →
  (∀ s, s ∈ pre → Dict.get (Pipeline.under s this) key = None) →
  is_Some (Dict.get (Pipeline.under dup this) key) →
  let r := (FilterManager.register (FilterManager.many (pre ++ dup :: post))
              key callback this).1 in
  let this' := (FilterManager.register (FilterManager.many (pre ++ dup :: post))
                  key callback this).2 in
  r = Throw (FilterManager.E_DUP_FILTER_FUNCTION dup key)
  ∧ (∀ s, s ∈ pre → Dict.get (Pipeline.under s this') key = Some callback)
  ∧ (∀ s, s ∉ pre →
          FilterManager._filters this' !! s
          = FilterManager._filters this !! s).
Proof.
  intros Hnd Hdup Hfree [f Hf]. unfold FilterManager.register.
  destruct (register_loop_prefix pre (dup :: post) key callback this Hnd Hfree)
    as (this1 & -> & Hin & Hout).
  assert (Pipeline.under dup this1 = Pipeline.under dup this) as Hsame
    by (unfold Pipeline.under; by rewrite Hout).
  simpl. unfold Pipeline.under in *.
  destruct (FilterManager._filters this1 !! dup) as [sub|] eqn:Hsub;
    simpl in *.
  - rewrite Hsub; simpl. rewrite Hsame, Hf. simpl. done.
  - rewrite <- Hsame in Hf. done.
Qed.

Lemma register_is_not_atomic_witness :
  let this' := (FilterManager.register (FilterManager.many ["p"; "q"; "r"])
                  "k" 2 FilterExamples.taken).2 in
  (FilterManager.register (FilterManager.many ["p"; "q"; "r"])
     "k" 2 FilterExamples.taken).1
  = Throw (FilterManager.E_DUP_FILTER_FUNCTION "q" "k")
  ∧ Dict.get (Pipeline.under "p" this') "k" = Some 2
  ∧ FilterManager._filters this' !! "r" = None.
Proof.
  destruct (register_is_not_atomic ["p"] "q" ["r"] "k" 2 FilterExamples.taken)
    as (Hr & Hin & Hout).
  - apply NoDup_singleton.
  - by intros [=]%list_elem_of_singleton.
  - intros s ->%list_elem_of_singleton. vm_compute. reflexivity.
  - vm_compute. eauto.
  - split; [exact Hr |]. split.
    + apply Hin. by left.
    + rewrite Hout by (by intros [=]%list_elem_of_singleton).
      vm_compute. reflexivity.
Defined.

End registration_of_filters.

(** * More about the event emitter *)

Section inspection.

Implicit Types (this : t) (event : string) (callback : cb).
Implicit Types (ls : list ListenerInfo.t).








End inspection.


Section more_removal.

Implicit Types (this : t) (event : string) (which : option cb).




End more_removal.

Section capacity.

Implicit Types (this : t) (event : string) (callbacks : list cb).






End capacity.

Section more_configuration.

Implicit Types (this : t) (event : string).



End more_configuration.

(** * More about [emit] *)

Section records.

Implicit Types (this : t) (event : string).

Lemma eventNames_set_slot_grows event ev this this' :
  P_EVENT_SLOTS this' = P_EVENT_SLOTS this →
  eventNames this ⊆ eventNames (set_slot event ev this').
Proof.
  intros Heq. unfold eventNames; simpl. rewrite dom_insert_L, Heq.
  apply (union_subseteq_r (C := gset string)).
Qed.

(** X7: no method ever removes the record of an event: after [on], [once],
    [off], [configEvent] and after an [emit], whatever its callbacks do,
    [eventNames] has at least the names it had. *)
Theorem records_are_never_removed this :
  (∀ event callback which args,
     eventNames this ⊆ eventNames (on event callback this).2
     ∧ eventNames this ⊆ eventNames (once event callback this).2
     ∧ eventNames this ⊆ eventNames (off event which this).2
     ∧ eventNames this ⊆ eventNames (configEvent args this))
  ∧ (∀ (U : Type) (code : cb → list value → script U) fuel event args
       (w : world U) r w',
       emitter w = this →
       emit code fuel event args w = Some (r, w') →
       eventNames this ⊆ eventNames (emitter w')).
Proof.
  split.
  - intros event callback which args. rewrite on_add, once_add. split_and!.
    + destruct (add_effect false event callback this) as (ls & -> & _).
      by apply eventNames_set_slot_grows.
    + destruct (add_effect true event callback this) as (ls & -> & _).
      by apply eventNames_set_slot_grows.
    + destruct (off_effect event which this) as [-> | (ev & _ & ->)];
        [done | by apply eventNames_set_slot_grows].
    + destruct args as [e config | config]; simpl; [| done].
      destruct (P_EVENT_SLOTS this !! e); by apply eventNames_set_slot_grows.
  - intros U code fuel event args w r w' <- He e Hin.
    unfold eventNames in *. apply elem_of_dom. apply elem_of_dom in Hin.
    by apply (emit_record_stays code fuel event args w r w' e Hin).
Qed.

Lemma records_are_never_removed_witness :
  ∃ w',
    emit Examples.code 5 "x" [] (Examples.start Examples.rewiring_emitter)
    = Some (Normal true, w')
    ∧ eventNames Examples.rewiring_emitter ⊆ eventNames (emitter w').
Proof.
  destruct (emit Examples.code 5 "x" []
              (Examples.start Examples.rewiring_emitter))
    as [[r w']|] eqn:He; [| by vm_compute in He].
  assert (r = Normal true) as -> by (vm_compute in He; congruence).
  exists w'. split; [reflexivity |].
  destruct (records_are_never_removed Examples.rewiring_emitter) as [_ Hemit].
  apply (Hemit unit Examples.code 5 "x" []
           (Examples.start Examples.rewiring_emitter) (Normal true) w');
    [reflexivity | exact He].
Defined.

End records.

Section reading_callbacks.

Context {U : Type}.
Variable code : cb → list value → script U.
Hypothesis code_reads : ∀ callback args, calls_only reads (code callback args).

Implicit Types (w : world U) (event : string) (args : list value).
Implicit Types (listener : ListenerInfo.t) (fuel i n : nat).

Lemma kept_from_refl w : kept_from w w.
Proof.
  split_and!; [done | done |]. intros event.
  destruct (P_EVENT_SLOTS (emitter w) !! event); by constructor.
Qed.

Lemma emit_kept_from fuel event args w r w' :
  emit code fuel event args w = Some (r, w') → kept_from w w'.
Proof.
  pose proof (kept_from_refl w) as Hrefl. revert Hrefl.
  apply (emit_keeps code (λ w', kept_from w w') reads); try done.
  - intros c w0 r0 w0' Hc Hk Hdo.
    destruct c; try done; by injection Hdo as <- <-.
  - intros l e i w0 (Ho & Hg & Hs).
    destruct (emitter_finally l e i w0) as [Heq | (ev & Hev & Heq)];
      [unfold kept_from; by rewrite Heq |].
    unfold kept_from. rewrite Heq. split_and!; [done | done |].
    intros e0. unfold set_slot. cbn [P_EVENT_SLOTS].
    destruct (decide (e = e0)) as [<- | Hne].
    + rewrite lookup_insert_eq. specialize (Hs e). rewrite Hev in Hs.
      inversion Hs as [? ev0 [Hc Hl] |]; subst. constructor.
      cbn [EventInfo.config EventInfo.listeners].
      split; [done |]. etrans; [| exact Hl].
      rewrite splice_one_left.
      rewrite <- (take_drop i (EventInfo.listeners ev)) at 3.
      apply sublist_app; [done |].
      replace (S i) with (i + 1) by lia.
      rewrite <- drop_drop. apply sublist_drop.
    + rewrite lookup_insert_ne by done. apply Hs.
Qed.

Lemma try_catch_reads_other fuel event event' args I C listener w v w1 :
  event' ≠ "error" →
  try_catch code (emit code fuel) event args I C listener w = Some (v, w1) →
  queue event' w1 = queue event' w.
Proof.
  intros Hne. unfold try_catch.
  destruct (run_reads (emit code fuel)
              (code (ListenerInfo.callback listener) args)
              (invoked event (ListenerInfo.callback listener) args w)
              (code_reads _ _)) as (r1 & u & ->).
  destruct r1 as [ret | e].
  - destruct (I && _); by intros [= <- <-].
  - case_bool_decide as Hev; [by intros [= <- <-] |].
    set (w0 := with_store u _).
    destruct (emit code fuel "error" [e] w0) as [[r2 w2]|] eqn:He; [| done].
    assert (queue event' w2 = queue event' w) as Hq.
    { destruct (decide (queue "error" w0 = [])) as [Hnil | Hnil].
      - rewrite (emit_empty _ _ _ _ _ Hnil) in He. by injection He as <- <-.
      - rewrite (emit_nonempty _ _ _ _ _ Hnil) in He.
        by apply (dispatch_error_reads code code_reads _ _ _ _ _ _ _ _ event')
          in He. }
    destruct r2; [destruct (negb C) |]; by intros [= <- <-].
Qed.

Lemma dispatch_reads_other fuel event event' args I C i w r w' :
  event' ≠ event → event' ≠ "error" →
  dispatch code fuel event args I C i w = Some (r, w') →
  queue event' w' = queue event' w.
Proof.
  intros Hne Herr. revert i w.
  induction fuel as [| fuel IH]; intros i w; [done |].
  rewrite dispatch_S.
  destruct (queue event w !! i) as [listener|]; [| by intros [= <- <-]].
  unfold body.
  destruct (try_catch code (emit code fuel) event args I C listener w)
    as [[v w1]|] eqn:Htc; [| done].
  apply (try_catch_reads_other _ _ event') in Htc; [| done].
  assert (queue event' (finally listener event i w1) = queue event' w) as Hf
    by (rewrite queue_finally_ne by done; done).
  destruct v.
  - by intros [= <- <-].
  - intros Hd. apply IH in Hd. by rewrite Hd.
Qed.

(** X9: an [emit] whose callbacks leave the emitter alone changes neither
    the global configuration nor the configuration of any event, adds no
    record and no listener (the listeners of every event afterwards are
    among those before, in the same order), and leaves the listeners of the
    events other than the one emitted and ["error"] exactly as they are. *)
Theorem emit_only_removes fuel event args w r w' :
  emit code fuel event args w = Some (r, w') →
  deref (P_CONFIG (emitter w')) (emitter w')
  = deref (P_CONFIG (emitter w)) (emitter w)
  ∧ eventNames (emitter w') = eventNames (emitter w)
  ∧ (∀ event', event_config event' (emitter w')
               = event_config event' (emitter w))
  ∧ (∀ event', listeners event' (emitter w')
               `sublist_of` listeners event' (emitter w))
  ∧ (∀ event', event' ≠ event → event' ≠ "error" →
               listeners event' (emitter w') = listeners event' (emitter w)).
Proof.
  intros He. pose proof (emit_kept_from _ _ _ _ _ _ He) as (Ho & Hg & Hs).
  split_and!.
  - unfold deref. by rewrite Ho, Hg.
  - unfold eventNames. apply set_eq. intros e. rewrite !elem_of_dom.
    specialize (Hs e).
    destruct Hs as [? ? _ |]; split; intros [? ?]; by eauto.
  - intros e. unfold event_config, deref. rewrite Ho. specialize (Hs e).
    destruct Hs as [ev' ev [Hc _] |]; simpl; [by rewrite Hc | done].
  - intros e. unfold listeners. specialize (Hs e).
    destruct Hs as [ev' ev [_ Hl] |]; [| done].
    by apply (fmap_sublist ListenerInfo.callback).
  - intros e Hne Herr. rewrite !listeners_queue.
    destruct (decide (queue event w = [])) as [Hnil | Hnil].
    + rewrite (emit_empty _ _ _ _ _ Hnil) in He. by injection He as <- <-.
    + rewrite (emit_nonempty _ _ _ _ _ Hnil) in He.
      by rewrite (dispatch_reads_other _ _ e _ _ _ _ _ _ _ Hne Herr He).
Qed.

End reading_callbacks.

Lemma plain_code_reads callback args :
  calls_only reads (Examples.plain_code callback args).
Proof.
  unfold Examples.plain_code.
  do 9 (destruct callback as [| callback];
        [repeat first [done | constructor | intros [[| [] | |]|]] |]).
  constructor.
Defined.

Lemma emit_only_removes_witness :
  let w := Examples.start Examples.once_emitter in
  ∃ w',
    emit Examples.plain_code 5 "x" [] w = Some (Normal true, w')
    ∧ eventNames (emitter w') = eventNames (emitter w)
    ∧ listeners "x" (emitter w') `sublist_of` listeners "x" (emitter w).
Proof.
  intros w.
  destruct (emit Examples.plain_code 5 "x" [] w) as [[r w']|] eqn:He;
    [| by vm_compute in He].
  assert (r = Normal true) as -> by (vm_compute in He; congruence).
  exists w'. split; [reflexivity |].
  destruct (emit_only_removes Examples.plain_code plain_code_reads
              5 "x" [] w (Normal true) w' He) as (_ & Hn & _ & Hl & _).
  split; [exact Hn | apply Hl].
Defined.

Lemma emit_reads_visits_witness :
  let w := Examples.start Examples.once_emitter in
  ∃ w' m j,
    emit Examples.plain_code 5 "x" [] w = Some (Normal true, w')
    ∧ 0 < m ∧ m ≤ length (queue "x" w)
    ∧ queue "x" w' = after_visits m (queue "x" w)
    ∧ journal w' = journal w ++ j
    ∧ invocations_of "x" j
      = map (λ l, ("x", ListenerInfo.callback l, [])) (take m (queue "x" w)).
Proof.
  intros w.
  destruct (emit Examples.plain_code 5 "x" [] w) as [[r w']|] eqn:He;
    [| by vm_compute in He].
  assert (r = Normal true) as -> by (vm_compute in He; congruence).
  destruct (emit_reads_visits Examples.plain_code plain_code_reads
              5 "x" [] w (Normal true) w') as (m & j & Hm);
    [by vm_compute | exact He |].
  exists w', m, j. split; [reflexivity | exact Hm].
Defined.

(** ** Dispatches that visit every listener *)

Section all_visited.

Context {U : Type}.
Variable code : cb → list value → script U.
Hypothesis code_reads : ∀ callback args, calls_only reads (code callback args).

Implicit Types (w : world U) (listener : ListenerInfo.t) (fuel i n : nat).
Implicit Types (q : list ListenerInfo.t).

Variables (event : string) (args : list value) (I C : bool).

(** A property of the worlds that the dispatch goes through, under which the
    [try] and the [catch] block never leave the loop. *)
Variable good : world U → Prop.

Hypothesis good_finally :
  ∀ listener i w, good w → good (finally listener event i w).

Hypothesis goes_on :
  ∀ fuel listener w,
    good w →
    ∃ w1,
      try_catch code (emit code fuel) event args I C listener w
      = Some (GoesOn, w1)
      ∧ queue event w1 = queue event w
      ∧ journal w1
        = journal w ++ [(event, ListenerInfo.callback listener, args)]
      ∧ good w1.

Lemma dispatch_visits_all fuel q n w :
  good w → n ≤ length q →
  queue event w = after_visits n q →
  length q - n < fuel →
  ∃ w',
    dispatch code fuel event args I C
      (length (filter (λ l, ListenerInfo.once l = false) (take n q))) w
    = Some (Normal true, w')
    ∧ queue event w' = filter (λ l, ListenerInfo.once l = false) q
    ∧ journal w'
      = journal w
        ++ map (λ l, (event, ListenerInfo.callback l, args)) (drop n q)
    ∧ good w'.
Proof.
  revert n w. induction fuel as [| fuel IH]; intros n w Hg Hn Hq Hf; [lia |].
  rewrite dispatch_S, Hq, after_visits_lookup.
  destruct (q !! n) as [listener|] eqn:Hqn.
  - pose proof (lookup_lt_Some _ _ _ Hqn) as Hlt.
    destruct (goes_on fuel listener w Hg) as (w1 & Htc & Hq1 & Hj1 & Hg1).
    unfold body. rewrite Htc.
    destruct (after_visits_S n q listener Hqn) as [HqS HiS].
    set (i := length (filter (λ l, ListenerInfo.once l = false) (take n q)))
      in *.
    rewrite <- HiS.
    destruct (IH (S n) (finally listener event i w1)) as (w' & Hd & Hq' & Hj' & Hg').
    + by apply good_finally.
    + lia.
    + rewrite HqS. destruct (ListenerInfo.once listener) eqn:Ho.
      * by rewrite queue_finally_once, Hq1, Hq.
      * by rewrite queue_finally_plain, Hq1, Hq.
    + lia.
    + exists w'. split_and!; try done.
      rewrite Hj', journal_finally, Hj1, <- app_assoc.
      by rewrite (drop_S _ _ _ Hqn).
  - apply lookup_ge_None in Hqn. exists w.
    split_and!; [done | | | done].
    + rewrite Hq. unfold after_visits.
      by rewrite take_ge, drop_ge, app_nil_r by lia.
    + by rewrite drop_ge, app_nil_r by lia.
Qed.

End all_visited.

Section every_listener.

Context {U : Type}.
Variable code : cb → list value → script U.
Hypothesis code_reads : ∀ callback args, calls_only reads (code callback args).

Implicit Types (w : world U) (event : string) (args : list value).
Implicit Types (listener : ListenerInfo.t) (fuel i n : nat).

Lemma run_no_throw emit_rec (s : script U) w :
  calls_only reads s → no_throw s →
  ∃ v u, run emit_rec s w = Some (Normal v, with_store u w).
Proof.
  intros Hs. revert w.
  induction Hs as [v | e | c k Hc Hk IH | k Hk IH | u k Hk IH]; intros w Hn;
    inversion Hn; subst; simpl.
  - exists v, (store w). by destruct w.
  - destruct c; try done; simpl; by apply IH.
  - by apply IH.
  - destruct (IH (with_store u w)) as (v & u' & ->); [done |]. by exists v, u'.
Qed.

(** X10: when the event is not interruptable and the callbacks leave the
    emitter alone and do not throw, [emit] on an event with listeners
    invokes all of them, each once, in the order of registration, and
    returns [true]; afterwards the listeners registered with [once] are gone
    and the others are there in their order. *)
Theorem emit_invokes_all fuel event args w :
  (∀ callback args, no_throw (code callback args)) →
  INTERRUPTABLE event w = false →
  queue event w ≠ [] →
  length (queue event w) < fuel →
  ∃ w',
    emit code fuel event args w = Some (Normal true, w')
    ∧ journal w'
      = journal w
        ++ map (λ l, (event, ListenerInfo.callback l, args)) (queue event w)
    ∧ queue event w'
      = filter (λ l, ListenerInfo.once l = false) (queue event w).
Proof.
  intros Hnt HI Hne Hfuel. rewrite (emit_nonempty _ _ _ _ _ Hne), HI.
  destruct (dispatch_visits_all code event args false
              (CONTINUE_ON_ERROR event w) (λ _, True)) with
    (fuel := fuel) (q := queue event w) (n := 0) (w := w)
    as (w' & Hd & Hq & Hj & _).
  - done.
  - intros fuel0 listener w0 _. unfold try_catch.
    destruct (run_no_throw (emit code fuel0)
                (code (ListenerInfo.callback listener) args)
                (invoked event (ListenerInfo.callback listener) args w0)
                (code_reads _ _) (Hnt _ _)) as (v & u & ->).
    simpl. eexists. split_and!; done.
  - done.
  - lia.
  - by rewrite after_visits_0.
  - lia.
  - rewrite take_0 in Hd. simpl in Hd. rewrite drop_0 in Hj. by exists w'.
Qed.

(** X11: with [continueOnError = true] on an event that is not
    interruptable and is not ["error"], when nothing listens to ["error"]
    and the callbacks leave the emitter alone, a listener that throws stops
    nothing: [emit] invokes every listener of the event, in order, and
    returns [true]; what the listeners threw is lost. *)
Theorem emit_continues_on_error fuel event args w :
  event ≠ "error" →
  queue "error" w = [] →
  INTERRUPTABLE event w = false →
  CONTINUE_ON_ERROR event w = true →
  queue event w ≠ [] →
  length (queue event w) < fuel →
  ∃ w',
    emit code fuel event args w = Some (Normal true, w')
    ∧ journal w'
      = journal w
        ++ map (λ l, (event, ListenerInfo.callback l, args)) (queue event w)
    ∧ queue event w'
      = filter (λ l, ListenerInfo.once l = false) (queue event w).
Proof.
  intros Hev Herr HI HC Hne Hfuel. rewrite (emit_nonempty _ _ _ _ _ Hne), HI, HC.
  destruct (dispatch_visits_all code event args false true
              (λ w0 : world U, queue "error" w0 = [])) with
    (fuel := fuel) (q := queue event w) (n := 0) (w := w)
    as (w' & Hd & Hq & Hj & _).
  - intros listener i w0 Hg. by rewrite queue_finally_ne.
  - intros fuel0 listener w0 Hg. unfold try_catch.
    destruct (run_reads (emit code fuel0)
                (code (ListenerInfo.callback listener) args)
                (invoked event (ListenerInfo.callback listener) args w0)
                (code_reads _ _)) as (r1 & u & ->).
    destruct r1 as [ret | e]; simpl.
    + eexists. split_and!; done.
    + rewrite bool_decide_eq_false_2 by done.
      rewrite emit_empty by done. simpl. eexists. split_and!; done.
  - done.
  - lia.
  - by rewrite after_visits_0.
  - lia.
  - rewrite take_0 in Hd. simpl in Hd. rewrite drop_0 in Hj. by exists w'.
Qed.


End every_listener.

Lemma calm_code_reads callback args :
  calls_only reads (Examples.calm_code callback args).
Proof.
  unfold Examples.calm_code.
  do 9 (destruct callback as [| callback];
        [repeat first [done | constructor | intros [[| [] | |]|]] |]).
  constructor.
Defined.

Lemma calm_code_no_throw callback args :
  no_throw (Examples.calm_code callback args).
Proof.
  unfold Examples.calm_code.
  do 9 (destruct callback as [| callback];
        [repeat first [constructor | intros [[| [] | |]|]] |]).
  constructor.
Defined.

Lemma emit_invokes_all_witness :
  let w := Examples.start Examples.once_emitter in
  ∃ w',
    emit Examples.calm_code 5 "x" [] w = Some (Normal true, w')
    ∧ journal w' = [("x", 3, []); ("x", 1, [])]
    ∧ queue "x" w' = [ListenerInfo.new 1 false].
Proof.
  intros w.
  destruct (emit_invokes_all Examples.calm_code calm_code_reads 5 "x" [] w)
    as (w' & He & Hj & Hq).
  - apply calm_code_no_throw.
  - vm_compute. reflexivity.
  - vm_compute. discriminate.
  - vm_compute. lia.
  - exists w'. split; [exact He |]. split; [exact Hj | exact Hq].
Defined.

Lemma emit_continues_on_error_witness :
  let w := Examples.start Examples.continuing_emitter in
  ∃ w',
    emit Examples.plain_code 5 "x" [] w = Some (Normal true, w')
    ∧ journal w' = [("x", 3, []); ("x", 1, [])].
Proof.
  intros w.
  destruct (emit_continues_on_error Examples.plain_code plain_code_reads
              5 "x" [] w) as (w' & He & Hj & _).
  - discriminate.
  - vm_compute. reflexivity.
  - vm_compute. reflexivity.
  - vm_compute. reflexivity.
  - vm_compute. discriminate.
  - vm_compute. lia.
  - exists w'. split; [exact He | exact Hj].
Defined.




(** * More about the filter manager *)

Section more_dictionaries.

Context {V : Type}.
Implicit Types (o : Dict.t V) (k : string) (v : V).

Lemma get_None o k : Dict.get o k = None ↔ k ∉ map fst o.
Proof.
  rewrite <- (get_is_Some o k), <- eq_None_not_Some. done.
Qed.

Lemma delete_absent o k : Dict.get o k = None → Dict.delete o k = o.
Proof.
  induction o as [| [k' v'] o IH]; simpl; [done |].
  case_decide; [done |]. intros Hg. by rewrite IH.
Qed.

Lemma get_delete_ne o k k' :
  k ≠ k' → Dict.get (Dict.delete o k) k' = Dict.get o k'.
Proof.
  intros Hne. induction o as [| [k0 v0] o IH]; simpl; [done |].
  case_decide as Hk; simpl.
  - subst k0. by rewrite decide_False.
  - by rewrite IH.
Qed.

Lemma keys_delete o k :
  map fst (Dict.delete o k) `sublist_of` map fst o.
Proof.
  induction o as [| [k' v'] o IH]; simpl; [done |].
  case_decide; simpl; [by apply sublist_cons | by apply sublist_skip].
Qed.

Lemma get_delete_eq o k :
  NoDup (map fst o) → Dict.get (Dict.delete o k) k = None.
Proof.
  induction o as [| [k' v'] o IH]; simpl; [done |].
  intros [Hk Hnd]%NoDup_cons. case_decide as Hkk; simpl.
  - subst k'. by apply get_None.
  - rewrite decide_False by done. by apply IH.
Qed.

Lemma keys_set_new o k v :
  Dict.get o k = None → map fst (Dict.set o k v) = map fst o ++ [k].
Proof.
  induction o as [| [k' v'] o IH]; simpl; [done |].
  case_decide; [done |]. intros Hg. simpl. by rewrite IH.
Qed.



End more_dictionaries.

(** The alias [Dict.t] hides the type of the values from [rewrite]. *)
Ltac plain_dict := simpl in *; unfold Pipeline.under, Dict.t in *.

Section more_registration.

Implicit Types (this : FilterManager.t) (name key : string) (callback : cb).


Lemma taken_has_dictionary this name key :
  is_Some (Dict.get (Pipeline.under name this) key) →
  is_Some (FilterManager._filters this !! name).
Proof.
  unfold Pipeline.under.
  destruct (FilterManager._filters this !! name); [eauto | by intros [? ?]].
Qed.




(** X14: [register] with one name and a key that is taken under it throws
    the duplicate-registration error for that name and key and changes
    nothing. *)
Theorem register_refuses_duplicate this name key callback :
  is_Some (Dict.get (Pipeline.under name this) key) →
  FilterManager.register (FilterManager.one name) key callback this
  = (Throw (FilterManager.E_DUP_FILTER_FUNCTION name key), this).
Proof.
  intros Hg. destruct (taken_has_dictionary _ _ _ Hg) as [sub Hsub].
  unfold FilterManager.register. plain_dict.
  rewrite Hsub in Hg |- *. plain_dict. rewrite ?Hsub. plain_dict.
  by destruct Hg as [f ->].
Qed.

Lemma register_refuses_duplicate_witness :
  FilterManager.register (FilterManager.one "n") "a" 7
    FilterExamples.two_filters
  = (Throw (FilterManager.E_DUP_FILTER_FUNCTION "n" "a"),
     FilterExamples.two_filters).
Proof.
  apply (register_refuses_duplicate FilterExamples.two_filters "n" "a" 7).
  vm_compute. eauto.
Defined.





End more_registration.

Section unregistration.

Implicit Types (this : FilterManager.t) (name key : string) (callback : cb).

Lemma unregister_under this name key :
  Pipeline.under name (FilterManager.unregister name key this)
  = Dict.delete (Pipeline.under name this) key.
Proof.
  unfold FilterManager.unregister, Pipeline.under.
  destruct (FilterManager._filters this !! name) as [sub|] eqn:Hsub.
  - simpl. by rewrite lookup_insert_eq.
  - by rewrite Hsub.
Qed.

Lemma unregister_other this name name' key :
  name ≠ name' →
  FilterManager._filters (FilterManager.unregister name key this) !! name'
  = FilterManager._filters this !! name'.
Proof.
  intros Hne. unfold FilterManager.unregister.
  destruct (FilterManager._filters this !! name) as [sub|]; [| done].
  simpl. by rewrite lookup_insert_ne.
Qed.

Lemma getFilterList_unregister this name key :
  FilterManager.getFilterList (FilterManager.unregister name key this)
  = FilterManager.getFilterList this.
Proof.
  unfold FilterManager.unregister, FilterManager.getFilterList.
  destruct (FilterManager._filters this !! name) as [sub|] eqn:Hsub; [| done].
  simpl. rewrite dom_insert_L.
  apply (subseteq_union_1_L (C := gset string)), singleton_subseteq_l.
  apply elem_of_dom. eauto.
Qed.

(** X17: in a registry where no key is there twice under a name,
    [unregister(name, key)] frees the key under that name and changes
    nothing else: the other keys under the name keep their functions, the
    other names keep theirs, and the names in [getFilterList()] are the
    same, the one whose last key was removed included. *)
Theorem unregister_frees_the_key this name key :
  distinct_keys this →
  let this' := FilterManager.unregister name key this in
  Dict.get (Pipeline.under name this') key = None
  ∧ (∀ key', key ≠ key' →
       Dict.get (Pipeline.under name this') key'
       = Dict.get (Pipeline.under name this) key')
  ∧ (∀ name', name ≠ name' →
       FilterManager._filters this' !! name'
       = FilterManager._filters this !! name')
  ∧ FilterManager.getFilterList this' = FilterManager.getFilterList this.
Proof.
  intros Hd. split_and!.
  - rewrite unregister_under. apply get_delete_eq.
    unfold Pipeline.under.
    destruct (FilterManager._filters this !! name) as [sub|] eqn:Hsub;
      [by apply (Hd _ _ Hsub) | constructor].
  - intros key' Hne. rewrite unregister_under. by apply get_delete_ne.
  - intros name' Hne. by apply unregister_other.
  - apply getFilterList_unregister.
Qed.

Lemma unregister_frees_the_key_witness :
  Dict.get
    (Pipeline.under "n"
       (FilterManager.unregister "n" "a" FilterExamples.two_filters)) "a"
  = None.
Proof.
  apply (unregister_frees_the_key FilterExamples.two_filters "n" "a").
  apply (bool_decide_unpack _). vm_compute. reflexivity.
Defined.

(** X18: [unregister] of a pair that is not registered, because nothing is
    registered under the name or because the key is not there, changes
    nothing. *)
Theorem unregister_missing this name key :
  Dict.get (Pipeline.under name this) key = None →
  FilterManager.unregister name key this = this.
Proof.
  intros Hg. unfold FilterManager.unregister, Pipeline.under in *.
  destruct (FilterManager._filters this !! name) as [sub|] eqn:Hsub;
    [| done].
  simpl in Hg. rewrite (delete_absent _ _ Hg), insert_id by done.
  by destruct this.
Qed.

Lemma unregister_missing_witness :
  FilterManager.unregister "n" "zz" FilterExamples.two_filters
  = FilterExamples.two_filters
  ∧ FilterManager.unregister "m" "a" FilterExamples.two_filters
    = FilterExamples.two_filters.
Proof.
  split; apply unregister_missing; vm_compute; reflexivity.
Defined.




End unregistration.

Section more_pipeline.

Variable code : cb → value → list value → FilterManager.outcome.

Implicit Types (this : FilterManager.t) (name key : string) (callback : cb).
Implicit Types (v : value) (args : list value) (fs : list cb).

Lemma filter_chain_under name v args this :
  FilterManager.filter code name v args this
  = Pipeline.chain code (Pipeline.functions (Pipeline.under name this)) v args.
Proof.
  unfold FilterManager.filter, Pipeline.under.
  destruct (FilterManager._filters this !! name) as [callbacks|]; [| done].
  apply filter_loop_chain, keys_registered.
Qed.

Lemma chain_app fs fs' v args :
  Pipeline.chain code (fs ++ fs') v args
  = match Pipeline.chain code fs v args with
    | Normal v' => Pipeline.chain code fs' v' args
    | Throw e => Throw e
    end.
Proof.
  revert v. induction fs as [| f fs IH]; intros v; simpl; [done |].
  destruct (Pipeline.settle (code f v args)); [apply IH | done].
Qed.



(** X22: [filter] stops at the first function that throws or whose promise
    is rejected, and is rejected with that value: the functions after it
    are not called, whatever they are. *)
Theorem filter_stops_at_the_first_failure this name v args fs f fs' v' e :
  Pipeline.functions (Pipeline.under name this) = fs ++ f :: fs' →
  Pipeline.chain code fs v args = Normal v' →
  Pipeline.settle (code f v' args) = Throw e →
  FilterManager.filter code name v args this = Throw e.
Proof.
  intros Hfs Hpre Hf. rewrite filter_chain_under, Hfs, chain_app, Hpre.
  simpl. by rewrite Hf.
Qed.

End more_pipeline.


Lemma filter_stops_at_the_first_failure_witness :
  FilterManager.filter FilterExamples.code "n" (VNum 0) []
    FilterExamples.failing
  = Throw (VStr "no").
Proof.
  apply (filter_stops_at_the_first_failure FilterExamples.code
           FilterExamples.failing "n" (VNum 0) [] [1] 3 [2] (VNum 1)
           (VStr "no"));
    vm_compute; reflexivity.
Defined.

Section registry_invariant.

Implicit Types (this : FilterManager.t) (name key : string) (callback : cb).

Lemma distinct_keys_insert this name (sub : Dict.t cb) :
  distinct_keys this → NoDup (map fst sub) →
  distinct_keys (FilterManager.mk (<[name := sub]> (FilterManager._filters this))).
Proof. intros Hd Hs. by apply map_Forall_insert_2. Qed.

Lemma distinct_keys_register_loop names key callback this :
  distinct_keys this →
  distinct_keys (FilterManager.register_loop names key callback this).2.
Proof.
  revert this. induction names as [| s names IH]; intros this Hd; [done |].
  simpl.
  set (this1 := match FilterManager._filters this !! s with
                | Some _ => this
                | None => _
                end).
  assert (distinct_keys this1) as Hd1.
  { unfold this1. destruct (FilterManager._filters this !! s); [done |].
    apply distinct_keys_insert; [done | constructor]. }
  destruct (Dict.get (default [] (FilterManager._filters this1 !! s)) key)
    eqn:Hg; [done |].
  apply IH, distinct_keys_insert; [done |].
  rewrite (keys_set_new _ _ _ Hg). apply NoDup_app. split_and!.
  - destruct (FilterManager._filters this1 !! s) as [sub|] eqn:Hsub;
      [by apply (Hd1 _ _ Hsub) | constructor].
  - intros k Hin ->%list_elem_of_singleton. by apply get_None in Hg.
  - apply NoDup_singleton.
Qed.

Lemma NoDup_delete (o : Dict.t cb) key :
  NoDup (map fst o) → NoDup (map fst (Dict.delete o key)).
Proof. intros Hnd. eapply sublist_NoDup; [done | apply keys_delete]. Qed.

(** X23: no key is ever there twice under a name: this holds in a new
    registry and [register], [unregister] and [unregisterAll] keep it; and
    then [getFunctionList] returns no key twice. *)
Theorem keys_stay_distinct this :
  distinct_keys createFilterManager
  ∧ (distinct_keys this →
     (∀ names key callback,
        distinct_keys (FilterManager.register names key callback this).2)
     ∧ (∀ name key, distinct_keys (FilterManager.unregister name key this))
     ∧ (∀ name, distinct_keys (FilterManager.unregisterAll name this))
     ∧ (∀ name, NoDup (FilterManager.getFunctionList name this))).
Proof.
  split; [apply map_Forall_empty |]. intros Hd. split_and!.
  - intros names key callback. apply distinct_keys_register_loop, Hd.
  - intros name key. unfold FilterManager.unregister.
    destruct (FilterManager._filters this !! name) as [sub|] eqn:Hsub;
      [| done].
    apply distinct_keys_insert; [done |]. apply NoDup_delete.
    by apply (Hd _ _ Hsub).
  - intros name. unfold FilterManager.unregisterAll.
    by apply map_Forall_delete.
  - intros name. unfold FilterManager.getFunctionList.
    rewrite keys_perm.
    destruct (FilterManager._filters this !! name) as [sub|] eqn:Hsub;
      [by apply (Hd _ _ Hsub) | constructor].
Qed.

Lemma keys_stay_distinct_witness :
  NoDup (FilterManager.getFunctionList "n" FilterExamples.two_filters).
Proof.
  destruct (keys_stay_distinct FilterExamples.two_filters) as [_ Hkeep].
  destruct Hkeep as (_ & _ & _ & Hnd);
    [apply (bool_decide_unpack _); vm_compute; reflexivity | apply Hnd].
Defined.


End registry_invariant.
